(** * BrainMaps: a shallow embedding of the canvas scene library

    The development follows the TypeScript sources:
    - [src/libs/brainmaps.ts]: the scene engine [BrainMaps] and the path
      builder [BrainMapsPath2D];
    - [src/libs/shapes.ts]: [CenterAnchorShapes.roundedRectangle];
    - the text-node file: [layoutText].

    Conventions of the embedding.
    - A JavaScript string is the list of its UTF-16 code units.
    - A JavaScript number is a rational ([Q]): arithmetic is exact, and
      neither rounding nor NaN/Infinity is modelled.
    - A call that can throw returns an [Outcome]; a loop that the source
      writes as [while] takes a fuel argument and answers [OutOfFuel] when
      the fuel does not suffice.
    - The browser and the libraries (the measurement of a text in the
      page, the hit tests of the canvas, the device pixel ratio, the uuid
      generator) are arguments of the functions that use them; the
      animation frame callbacks of the window and the calls received by
      the canvas are part of the state. *)

From Stdlib Require Import List String Ascii Bool Arith ZArith NArith QArith Qminmax Lia.
From Stdlib Require Import Lqa.
Import ListNotations.

Local Open Scope list_scope.

(** ** JavaScript values *)

Module JS.

Definition CodeUnit := N.
Definition JSString := list CodeUnit.

(** An ASCII literal of the source as a JavaScript string. *)
Definition lit (s : string) : JSString :=
  map N_of_ascii (list_ascii_of_string s).

Definition codeunit_eqb (a b : CodeUnit) : bool := N.eqb a b.

(** [a === b] on strings. *)
Fixpoint str_eqb (a b : JSString) : bool :=
  match a, b with
  | [], [] => true
  | x :: a', y :: b' => codeunit_eqb x y && str_eqb a' b'
  | _, _ => false
  end.

(** [s.startsWith(p)]. *)
Fixpoint startsWith (s p : JSString) : bool :=
  match p, s with
  | [], _ => true
  | y :: p', x :: s' => codeunit_eqb x y && startsWith s' p'
  | _ :: _, [] => false
  end.

(** The characters matched by [\s], which are also the ones [trim] strips:
    WhiteSpace and LineTerminator of ECMAScript. *)
Definition isWhiteSpace (c : CodeUnit) : bool :=
  ((9 <=? c) && (c <=? 13) || (c =? 32) || (c =? 160) || (c =? 5760)
   || (8192 <=? c) && (c <=? 8202)
   || (c =? 8232) || (c =? 8233) || (c =? 8239) || (c =? 8287)
   || (c =? 12288) || (c =? 65279))%N.

Fixpoint trimStart (s : JSString) : JSString :=
  match s with
  | [] => []
  | c :: s' => if isWhiteSpace c then trimStart s' else s
  end.

Definition trimEnd (s : JSString) : JSString := rev (trimStart (rev s)).

(** [s.trim()]. *)
Definition trim (s : JSString) : JSString := trimEnd (trimStart s).

(** [arr.includes(x)] on an array of strings. *)
Definition includes (arr : list JSString) (x : JSString) : bool :=
  existsb (str_eqb x) arr.

(** [s.split('')]: one string per code unit. *)
Definition split_chars (s : JSString) : list JSString :=
  map (fun c => [c]) s.

(** [arr.join(sep)]; [String(arr)] is [arr.join(",")]. *)
Fixpoint join (sep : JSString) (arr : list JSString) : JSString :=
  match arr with
  | [] => []
  | [x] => x
  | x :: rest => x ++ sep ++ join sep rest
  end.

Definition Array_toString (arr : list JSString) : JSString :=
  join (lit ",") arr.

(** [arr[arr.length - 1]], the empty string standing for [undefined]. *)
Definition last_elem (arr : list JSString) : JSString := last arr [].

(** [arr[arr.length - 1] = v].  On an empty array JavaScript would set
    the property [-1] and leave the elements alone. *)
Fixpoint set_last (arr : list JSString) (v : JSString) : list JSString :=
  match arr with
  | [] => []
  | [_] => [v]
  | x :: rest => x :: set_last rest v
  end.

(** Exceptions of the modelled code. *)
Inductive JSError : Type :=
| Error (message : string)
| TypeError
| ErrorOf (prefix : string) (cause : JSError).

(** The result of running a piece of the program. *)
Inductive Outcome (A : Type) : Type :=
| Returned (a : A)
| Threw (e : JSError)
| OutOfFuel.

Arguments Returned {A} a.
Arguments Threw {A} e.
Arguments OutOfFuel {A}.

(** Number comparisons. *)
Definition num_lt (x y : Q) : bool := negb (Qle_bool y x).
Definition num_le (x y : Q) : bool := Qle_bool x y.
Definition num_eq (x y : Q) : bool := Qeq_bool x y.

(** [Math.PI], the exact value of the double. *)
Definition Math_PI : Q := 884279719003555 # 281474976710656.

End JS.

Import JS.

(** ** Text layout: [layoutText] *)

Module TextLayout.

Record TextOptions : Type := {
  textAlign : JSString;
  textSize : Q;
  textColor : JSString;
  textFont : JSString;
  textMaxWidth : Q
}.

(** What [clientWidth] and [clientHeight] of the probe element give. *)
Record ClientSize : Type := { clientWidth : Z; clientHeight : Z }.

Record Size : Type := { width : Q; height : Q }.

Record Layout : Type := { size : Size; lines : list JSString }.

(** *** Tokenisation

    The units are the matches of the global, case-insensitive regular
    expression of [layoutText].  Its first alternative is a run of one or
    more characters of a class (the letters a to z, the exclamation mark,
    comma, full stop, apostrophe, double quote, question mark and both
    parentheses) followed by at most one white space; its second
    alternative is one character that is neither a letter nor white
    space. *)

(** The class of the first alternative under the [i] flag. *)
Definition isWordChar (c : CodeUnit) : bool :=
  ((65 <=? c) && (c <=? 90) || (97 <=? c) && (c <=? 122)
   || (c =? 33) || (c =? 44) || (c =? 46) || (c =? 39) || (c =? 34)
   || (c =? 63) || (c =? 40) || (c =? 41))%N.

Definition flush (run : JSString) : list JSString :=
  match run with [] => [] | _ => [run] end.

(** The successive matches of the global regular expression.  [run] is the
    part of the first alternative matched so far: a maximal run of word
    characters, closed by at most one white space; any other character
    that is not white space is a match of the second alternative; a white
    space outside a run matches nothing and is skipped. *)
Fixpoint matches_from (run : JSString) (s : JSString) : list JSString :=
  match s with
  | [] => flush run
  | c :: rest =>
      if isWordChar c then matches_from (run ++ [c]) rest
      else if isWhiteSpace c then
        match run with
        | [] => matches_from [] rest
        | _ => (run ++ [c]) :: matches_from [] rest
        end
      else flush run ++ [c] :: matches_from [] rest
  end.

(** [text.match(re)] with the [g] flag: [None] is [null]. *)
Definition String_match (text : JSString) : option (list JSString) :=
  match matches_from [] text with
  | [] => None
  | ms => Some ms
  end.

(** *** Attaching Chinese punctuation to the unit before it *)

(** The string literal of the source: the full-width comma U+FF0C, the
    ideographic full stop U+3002, the full-width exclamation mark U+FF01,
    semicolon U+FF1B and question mark U+FF1F, the curly double quotes
    U+201C and U+201D, the full-width colon U+FF1A and the full-width
    parentheses U+FF08 and U+FF09. *)
Definition cnpunc : JSString :=
  [65292; 12290; 65281; 65307; 65311; 8220; 8221; 65306; 65288; 65289]%N.

(** One iteration of the [for] loop, at index [i] on [_temp_text[i] = u]. *)
Definition cnpunc_step (i : nat) (_cnpunc_array : list JSString) (u : JSString)
  : list JSString :=
  if (0 <? i)%nat && includes (split_chars cnpunc) u
  then set_last _cnpunc_array (last_elem _cnpunc_array ++ u)
  else _cnpunc_array ++ [u].

Fixpoint cnpunc_loop (i : nat) (_cnpunc_array : list JSString)
  (_temp_text : list JSString) : list JSString :=
  match _temp_text with
  | [] => _cnpunc_array
  | u :: rest => cnpunc_loop (S i) (cnpunc_step i _cnpunc_array u) rest
  end.

Definition merge_cnpunc (_temp_text : list JSString) : list JSString :=
  cnpunc_loop 0 [] _temp_text.

(** The units the line-fill loop works on. *)
Definition layout_units (text : JSString) : option (list JSString) :=
  match String_match text with
  | None => None
  | Some text_groups => Some (merge_cnpunc text_groups)
  end.

(** *** The greedy line fill *)

(** The document the probe element is laid out in: what the hidden [div]
    measures for a font family, a font size in px and a text.  The
    measurement is taken to succeed: an exception of the document while
    it measures, which the [catch] of [layoutText] would wrap like any
    other, is not modelled. *)
Record Document : Type := {
  measure : JSString -> Q -> JSString -> ClientSize
}.

Definition tryLayout (document : Document) (textOptions : TextOptions)
  (str : JSString) : ClientSize :=
  measure document (textFont textOptions) (textSize textOptions) str.

(** The variables of the [while] loop; [fill_lines] is the variable
    [lines]. *)
Record FillState : Type := {
  _temp_text : list JSString;
  fill_lines : list JSString;
  line_pointer : JSString;
  _maxWidth : Z
}.

(** One round of the body of [while (_temp_text.length > 0)]. *)
Definition fill_round (document : Document) (textOptions : TextOptions)
  (st : FillState) : FillState :=
  let next_word := firstn 1 (_temp_text st) in
  let _size :=
    tryLayout document textOptions
      (trim (line_pointer st ++ Array_toString next_word)) in
  if num_le (inject_Z (clientWidth _size)) (textMaxWidth textOptions) then
    let line_pointer' := line_pointer st ++ Array_toString next_word in
    {| _temp_text := skipn 1 (_temp_text st);
       fill_lines := set_last (fill_lines st) line_pointer';
       line_pointer := line_pointer';
       _maxWidth := Z.max (clientWidth _size) (_maxWidth st) |}
  else if negb (List.length (last_elem (fill_lines st)) =? 0)%nat then
    {| _temp_text := _temp_text st;
       fill_lines :=
         set_last (fill_lines st) (trim (last_elem (fill_lines st))) ++ [[]];
       line_pointer := [];
       _maxWidth := _maxWidth st |}
  else st.

(** The loop: [None] when [fuel] rounds were not enough to empty
    [_temp_text]. *)
Fixpoint fill_loop (document : Document) (textOptions : TextOptions)
  (fuel : nat) (st : FillState) : option FillState :=
  match _temp_text st with
  | [] => Some st
  | _ :: _ =>
      match fuel with
      | O => None
      | S fuel' =>
          fill_loop document textOptions fuel'
            (fill_round document textOptions st)
      end
  end.

Definition fill_init (units : list JSString) : FillState :=
  {| _temp_text := units; fill_lines := [[]]; line_pointer := [];
     _maxWidth := 0 |}.

Definition length_num {A : Type} (l : list A) : Q :=
  inject_Z (Z.of_nat (List.length l)).

Definition size_of_client (c : ClientSize) : Size :=
  {| width := inject_Z (clientWidth c); height := inject_Z (clientHeight c) |}.

(** The box computed once the loop is over. *)
Definition fill_result (textOptions : TextOptions) (st : FillState) : Layout :=
  {| size :=
       {| width := Qmin (inject_Z (_maxWidth st)) (textMaxWidth textOptions);
          height :=
            length_num (fill_lines st) * textSize textOptions
            + (length_num (fill_lines st) - 1) * (1 # 4)
              * textSize textOptions |};
     lines := fill_lines st |}.

(** [layoutText(text, textOptions)].  [text.match] gives [null] on a text
    without any unit; [text_groups.slice()] then raises a [TypeError],
    which the [catch] wraps. *)
Definition layoutText (document : Document) (fuel : nat) (text : JSString)
  (textOptions : TextOptions) : Outcome Layout :=
  if num_le (textMaxWidth textOptions) 0 then
    Returned {| size := size_of_client (tryLayout document textOptions text);
                lines := [text] |}
  else
    match String_match text with
    | None => Threw (ErrorOf "Unable to parse text: " TypeError)
    | Some text_groups =>
        match fill_loop document textOptions fuel
                (fill_init (merge_cnpunc text_groups)) with
        | None => OutOfFuel
        | Some st => Returned (fill_result textOptions st)
        end
    end.

(** A document for tests: every code unit is [w] px wide and a text is
    one line of height [h]. *)
Definition fixed_width_document (w h : Z) : Document :=
  {| measure := fun _ _ str =>
       {| clientWidth := w * Z.of_nat (List.length str); clientHeight := h |} |}.

(** *** Notions used to state the properties of [layoutText] *)

(** Membership in the punctuation set, as the loop tests it. *)
Definition is_cnpunc (u : JSString) : bool := includes (split_chars cnpunc) u.

(** Two ideographs (U+4E07, U+9A8F) and the full-width comma. *)
Definition wan : CodeUnit := 19975%N.
Definition jun : CodeUnit := 39567%N.
Definition fullwidth_comma : CodeUnit := 65292%N.

(** The other marks of the punctuation set: the ideographic full stop,
    the full-width exclamation mark, semicolon and question mark, the
    two curly double quotes, the full-width colon and the two full-width
    parentheses. *)
Definition ideographic_full_stop : CodeUnit := 12290%N.
Definition fullwidth_exclamation_mark : CodeUnit := 65281%N.
Definition fullwidth_semicolon : CodeUnit := 65307%N.
Definition fullwidth_question_mark : CodeUnit := 65311%N.
Definition left_double_quote : CodeUnit := 8220%N.
Definition right_double_quote : CodeUnit := 8221%N.
Definition fullwidth_colon : CodeUnit := 65306%N.
Definition fullwidth_left_parenthesis : CodeUnit := 65288%N.
Definition fullwidth_right_parenthesis : CodeUnit := 65289%N.

(** The units that are one mark of the punctuation set, written out. *)
Definition punctuation_marks : list JSString :=
  [[fullwidth_comma]; [ideographic_full_stop]; [fullwidth_exclamation_mark];
   [fullwidth_semicolon]; [fullwidth_question_mark]; [left_double_quote];
   [right_double_quote]; [fullwidth_colon]; [fullwidth_left_parenthesis];
   [fullwidth_right_parenthesis]].

(** The width measured for a tentative line. *)
Definition measured (document : Document) (textOptions : TextOptions)
  (str : JSString) : Z :=
  clientWidth (tryLayout document textOptions (trim str)).

(** The test [_size.width <= textOptions.textMaxWidth]. *)
Definition fits (document : Document) (textOptions : TextOptions)
  (str : JSString) : bool :=
  num_le (inject_Z (measured document textOptions str))
    (textMaxWidth textOptions).

(** The loop keeps [line_pointer] equal to the last line. *)
Definition fill_inv (st : FillState) : Prop :=
  fill_lines st <> [] /\ line_pointer st = last_elem (fill_lines st).

(** Rounds still needed: two for each unit left, one more to seal a line
    that is not empty. *)
Definition rounds_left (st : FillState) : nat :=
  2 * List.length (_temp_text st)
  + match line_pointer st with [] => 0 | _ => 1 end.

(** The widths the loop measured for the lines it accepted, in order. *)
Fixpoint accepted_widths (document : Document) (textOptions : TextOptions)
  (fuel : nat) (st : FillState) : list Z :=
  match _temp_text st, fuel with
  | u :: _, S fuel' =>
      (if fits document textOptions (line_pointer st ++ u)
       then [measured document textOptions (line_pointer st ++ u)] else [])
      ++ accepted_widths document textOptions fuel'
           (fill_round document textOptions st)
  | _, _ => []
  end.

Definition maximum (base : Z) (ws : list Z) : Z := fold_right Z.max base ws.

(** The largest width observed for a line while [text] was laid out. *)
Definition observed_max_width (document : Document) (fuel : nat)
  (text : JSString) (textOptions : TextOptions) : Z :=
  match String_match text with
  | Some text_groups =>
      maximum 0 (accepted_widths document textOptions fuel
                   (fill_init (merge_cnpunc text_groups)))
  | None => 0
  end.

(** The largest measured width among lines. *)
Definition max_line_width (document : Document) (textOptions : TextOptions)
  (ls : list JSString) : Z :=
  maximum 0 (map (measured document textOptions) ls).

(** A measurement under which the empty text has no width and a line
    does not get narrower when text is appended to it. *)
Definition monotone_measure (document : Document) (textOptions : TextOptions)
  : Prop :=
  measured document textOptions [] = 0%Z
  /\ forall s u,
       (measured document textOptions s
        <= measured document textOptions (s ++ u))%Z.

(** Under a monotone measurement [_maxWidth] is the largest measured
    width among the lines built so far. *)
Definition width_inv (document : Document) (textOptions : TextOptions)
  (st : FillState) : Prop :=
  fill_inv st
  /\ _maxWidth st = max_line_width document textOptions (fill_lines st).

(** Options and texts of the examples: the defaults of [textNode] with a
    maximum width of 30 px, and of 60 px. *)
Definition options_width (textMaxWidth : Q) : TextOptions :=
  {| textAlign := lit "center"; textSize := 14; textColor := lit "#000000";
     textFont := lit "Arial"; textMaxWidth := textMaxWidth |}.

End TextLayout.

(** ** The path builder: [BrainMapsPath2D] *)

Module Path.

(** A call received by the platform's [Path2D] object. *)
Inductive PathCall : Type :=
| Path2D_arc (x y radius startAngle endAngle : Q) (anticlockwise : option bool)
| Path2D_arcTo (x1 y1 x2 y2 radius : Q)
| Path2D_bezierCurveTo (cp1x cp1y cp2x cp2y x y : Q)
| Path2D_closePath
| Path2D_ellipse (x y radiusX radiusY rotation startAngle endAngle : Q)
    (anticlockwise : option bool)
| Path2D_lineTo (x y : Q)
| Path2D_moveTo (x y : Q)
| Path2D_quadraticCurveTo (cpx cpy x y : Q)
| Path2D_rect (x y w h : Q).

(** A [Path2D] is known by the calls it has received, oldest first. *)
Definition Path2D := list PathCall.

Record BrainMapsPath2D : Type := { _path2d : Path2D }.

(** [new BrainMapsPath2D()]. *)
Definition new_BrainMapsPath2D : BrainMapsPath2D := {| _path2d := [] |}.

Definition call (c : PathCall) (this : BrainMapsPath2D) : BrainMapsPath2D :=
  {| _path2d := _path2d this ++ [c] |}.

(** The methods.  [dpi] is [window.devicePixelRatio] read by the call. *)
Section Methods.
Variable dpi : Q.

Definition arc (x y radius startAngle endAngle : Q)
  (anticlockwise : option bool) : BrainMapsPath2D -> BrainMapsPath2D :=
  call (Path2D_arc (x * dpi) (y * dpi) (radius * dpi) startAngle endAngle
          anticlockwise).

(** The source calls [this._path2d.arc] here, with five arguments. *)
Definition arcTo (x1 y1 x2 y2 radius : Q)
  : BrainMapsPath2D -> BrainMapsPath2D :=
  call (Path2D_arc (x1 * dpi) (y1 * dpi) (x2 * dpi) (y2 * dpi) (radius * dpi)
          None).

Definition bezierCurveTo (cp1x cp1y cp2x cp2y x y : Q)
  : BrainMapsPath2D -> BrainMapsPath2D :=
  call (Path2D_bezierCurveTo (cp1x * dpi) (cp1y * dpi) (cp2x * dpi)
          (cp2y * dpi) (x * dpi) (y * dpi)).

Definition closePath : BrainMapsPath2D -> BrainMapsPath2D :=
  call Path2D_closePath.

Definition ellipse (x y radiusX radiusY rotation startAngle endAngle : Q)
  (anticlockwise : option bool) : BrainMapsPath2D -> BrainMapsPath2D :=
  call (Path2D_ellipse (x * dpi) (y * dpi) (radiusX * dpi) (radiusY * dpi)
          (rotation * dpi) startAngle endAngle anticlockwise).

Definition lineTo (x y : Q) : BrainMapsPath2D -> BrainMapsPath2D :=
  call (Path2D_lineTo (x * dpi) (y * dpi)).

Definition moveTo (x y : Q) : BrainMapsPath2D -> BrainMapsPath2D :=
  call (Path2D_moveTo (x * dpi) (y * dpi)).

Definition quadraticCurveTo (cpx cpy x y : Q)
  : BrainMapsPath2D -> BrainMapsPath2D :=
  call (Path2D_quadraticCurveTo (cpx * dpi) (cpy * dpi) (x * dpi) (y * dpi)).

Definition rect (x y w h : Q) : BrainMapsPath2D -> BrainMapsPath2D :=
  call (Path2D_rect (x * dpi) (y * dpi) (w * dpi) (h * dpi)).

End Methods.

Definition getPath (this : BrainMapsPath2D) : Path2D := _path2d this.

(** A primitive operation of the builder together with its arguments. *)
Inductive Primitive : Type :=
| Op_moveTo (x y : Q)
| Op_lineTo (x y : Q)
| Op_arc (x y radius startAngle endAngle : Q) (anticlockwise : option bool)
| Op_arcTo (x1 y1 x2 y2 radius : Q)
| Op_bezierCurveTo (cp1x cp1y cp2x cp2y x y : Q)
| Op_quadraticCurveTo (cpx cpy x y : Q)
| Op_ellipse (x y radiusX radiusY rotation startAngle endAngle : Q)
    (anticlockwise : option bool)
| Op_rect (x y w h : Q).

(** What the source does for a primitive. *)
Definition run (dpi : Q) (op : Primitive)
  : BrainMapsPath2D -> BrainMapsPath2D :=
  match op with
  | Op_moveTo x y => moveTo dpi x y
  | Op_lineTo x y => lineTo dpi x y
  | Op_arc x y r sa ea acw => arc dpi x y r sa ea acw
  | Op_arcTo x1 y1 x2 y2 r => arcTo dpi x1 y1 x2 y2 r
  | Op_bezierCurveTo a b c d x y => bezierCurveTo dpi a b c d x y
  | Op_quadraticCurveTo a b x y => quadraticCurveTo dpi a b x y
  | Op_ellipse x y rx ry rot sa ea acw => ellipse dpi x y rx ry rot sa ea acw
  | Op_rect x y w h => rect dpi x y w h
  end.

(** The call the specification asks for: the operation of the same name
    on the underlying path, every coordinate and radius multiplied by the
    scale factor, every angle left alone. *)
Definition scaled_call (dpi : Q) (op : Primitive) : PathCall :=
  match op with
  | Op_moveTo x y => Path2D_moveTo (x * dpi) (y * dpi)
  | Op_lineTo x y => Path2D_lineTo (x * dpi) (y * dpi)
  | Op_arc x y r sa ea acw =>
      Path2D_arc (x * dpi) (y * dpi) (r * dpi) sa ea acw
  | Op_arcTo x1 y1 x2 y2 r =>
      Path2D_arcTo (x1 * dpi) (y1 * dpi) (x2 * dpi) (y2 * dpi) (r * dpi)
  | Op_bezierCurveTo a b c d x y =>
      Path2D_bezierCurveTo (a * dpi) (b * dpi) (c * dpi) (d * dpi)
        (x * dpi) (y * dpi)
  | Op_quadraticCurveTo a b x y =>
      Path2D_quadraticCurveTo (a * dpi) (b * dpi) (x * dpi) (y * dpi)
  | Op_ellipse x y rx ry rot sa ea acw =>
      Path2D_ellipse (x * dpi) (y * dpi) (rx * dpi) (ry * dpi) rot sa ea acw
  | Op_rect x y w h => Path2D_rect (x * dpi) (y * dpi) (w * dpi) (h * dpi)
  end.

(** Whether the source makes the call the specification asks for. *)
Definition as_specified (op : Primitive) : bool :=
  match op with
  | Op_arcTo _ _ _ _ _ => false
  | Op_ellipse _ _ _ _ _ _ _ _ => false
  | _ => true
  end.

End Path.

(** ** The shape library: [CenterAnchorShapes] *)

Module Shapes.
Import Path.

Record Point : Type := { x : Q; y : Q }.

(** The error of [roundedRectangle], [InvalidGeometry] in the taxonomy
    of the specification. *)
Definition InvalidGeometry : JSError := Error "Invalid input".

(** The test that guards [roundedRectangle]. *)
Definition invalid_input (anchorX anchorY width height borderRadius : Q)
  : bool :=
  num_lt anchorX 0 || num_lt anchorY 0 || num_le width 0 || num_le height 0
  || num_lt borderRadius 0.

Definition roundedRectangle (dpi : Q)
  (anchorX anchorY width height borderRadius : Q) : Outcome BrainMapsPath2D :=
  if invalid_input anchorX anchorY width height borderRadius then
    Threw InvalidGeometry
  else
    let node := new_BrainMapsPath2D in
    if num_eq borderRadius 0 then
      Returned
        (rect dpi (anchorX - (1 # 2) * width) (anchorY - (1 # 2) * height)
           width height node)
    else
      let borderRadius := Qmin ((1 # 2) * Qmin width height) borderRadius in
      let topLeftCorner :=
        {| x := anchorX - (1 # 2) * width; y := anchorY - (1 # 2) * height |} in
      let topRightCorner :=
        {| x := anchorX + (1 # 2) * width; y := anchorY - (1 # 2) * height |} in
      let bottomLeftCorner :=
        {| x := anchorX - (1 # 2) * width; y := anchorY + (1 # 2) * height |} in
      let bottomRightCorner :=
        {| x := anchorX + (1 # 2) * width; y := anchorY + (1 # 2) * height |} in
      let topLeftCenter :=
        {| x := x topLeftCorner + borderRadius;
           y := y topLeftCorner + borderRadius |} in
      let topRightCenter :=
        {| x := x topRightCorner - borderRadius;
           y := y topRightCorner + borderRadius |} in
      let bottomLeftCenter :=
        {| x := x bottomLeftCorner + borderRadius;
           y := y bottomLeftCorner - borderRadius |} in
      let bottomRightCenter :=
        {| x := x bottomRightCorner - borderRadius;
           y := y bottomRightCorner - borderRadius |} in
      let node :=
        moveTo dpi (x topLeftCorner) (y topLeftCorner + borderRadius) node in
      let node :=
        arc dpi (x topLeftCenter) (y topLeftCenter) borderRadius
          (- Math_PI) (- Math_PI / 2) None node in
      let node :=
        lineTo dpi (x topRightCorner - borderRadius) (y topRightCorner) node in
      let node :=
        arc dpi (x topRightCenter) (y topRightCenter) borderRadius
          (- Math_PI / 2) 0 None node in
      let node :=
        lineTo dpi (x bottomRightCorner) (y bottomRightCorner - borderRadius)
          node in
      let node :=
        arc dpi (x bottomRightCenter) (y bottomRightCenter) borderRadius
          0 (Math_PI / 2) None node in
      let node :=
        lineTo dpi (x bottomLeftCorner + borderRadius) (y bottomLeftCorner)
          node in
      let node :=
        arc dpi (x bottomLeftCenter) (y bottomLeftCenter) borderRadius
          (Math_PI / 2) Math_PI None node in
      let node :=
        lineTo dpi (x topLeftCorner) (y topLeftCorner + borderRadius) node in
      Returned (closePath node).

End Shapes.
(** ** The scene engine: [BrainMaps] *)

Module Scene.
Import Path.

(** A callback of a drawable is a function of the host program.  The
    engine only calls it, so it is known here by a name, and a call is
    recorded in the trace of the dispatch that makes it. *)
Definition Callback := nat.

Record Drawable : Type := {
  uuid : JSString;
  id : JSString;
  path : Path2D;
  fillObject : option bool;
  fillStyle : option JSString;
  strokeStyle : option JSString;
  lineWidth : option Q;
  onHover : option Callback;
  onClick : option Callback;
  onMouseLeave : option Callback;
  onRightClick : option Callback;
  onDoubleClick : option Callback;
  drawText : option Callback;
  (** a property [createObject] leaves on the object besides the
      interface's own *)
  isFillObject : option bool
}.

(** [cb(arg)]. *)
Inductive Invocation : Type :=
| Invoke (cb : Callback) (arg : Drawable).

Inductive EventType : Type :=
| hover | mouseleave | doubleclick | click | rightclick.

(** The fields of a [BrainMaps] instance. *)
Record BrainMaps : Type := {
  _OBJ_STACK : list Drawable;
  _objcache_last_hist : option Drawable;
  _mousemove_callbacks : list Callback;
  _mouseclick_callbacks : list Callback;
  _mousedoubleclick_callbacks : list Callback;
  _mouserightclick_callbacks : list Callback;
  _mouseleave_callbacks : list Callback
}.

(** The fields right after [new BrainMaps(canvas)]. *)
Definition new_BrainMaps : BrainMaps :=
  {| _OBJ_STACK := []; _objcache_last_hist := None;
     _mousemove_callbacks := []; _mouseclick_callbacks := [];
     _mousedoubleclick_callbacks := []; _mouserightclick_callbacks := [];
     _mouseleave_callbacks := [] |}.

(** [array.map(f)] used for its effect on one list: the callbacks
    present in the objects, in order. *)
Definition present (f : Drawable -> option Callback) (l : list Drawable)
  : list Callback :=
  flat_map (fun o => match f o with Some cb => [cb] | None => [] end) l.

(** [this._OBJ_STACK = stack; this._reload_eventlisteners()]. *)
Definition set_stack (stack : list Drawable) (this : BrainMaps) : BrainMaps :=
  {| _OBJ_STACK := stack;
     _objcache_last_hist := _objcache_last_hist this;
     _mousemove_callbacks := present onHover stack;
     _mouseclick_callbacks := present onClick stack;
     _mousedoubleclick_callbacks := present onDoubleClick stack;
     _mouserightclick_callbacks := present onRightClick stack;
     _mouseleave_callbacks := present onMouseLeave stack |}.

Definition set_cache (cache : option Drawable) (this : BrainMaps)
  : BrainMaps :=
  {| _OBJ_STACK := _OBJ_STACK this;
     _objcache_last_hist := cache;
     _mousemove_callbacks := _mousemove_callbacks this;
     _mouseclick_callbacks := _mouseclick_callbacks this;
     _mousedoubleclick_callbacks := _mousedoubleclick_callbacks this;
     _mouserightclick_callbacks := _mouserightclick_callbacks this;
     _mouseleave_callbacks := _mouseleave_callbacks this |}.

(** *** The store *)

(** [addObject(object)]; [None] is a missing object. *)
Definition addObject (object : option Drawable) (this : BrainMaps)
  : Outcome BrainMaps :=
  match object with
  | None => Threw (Error "Drawable object required")
  | Some o => Returned (set_stack (_OBJ_STACK this ++ [o]) this)
  end.

(** The body of the arrow function of [searchObject]: [target] is
    overwritten by every object whose [id] is the identifier. *)
Definition search_step (identifier : JSString) (target : option Drawable)
  (obj : Drawable) : option Drawable :=
  if str_eqb (id obj) identifier then Some obj else target.

(** [searchObject(identifier)]; [None] is [undefined]. *)
Definition searchObject (identifier : JSString) (this : BrainMaps)
  : option Drawable :=
  fold_left (search_step identifier) (_OBJ_STACK this) None.

Definition updateObject (object : Drawable) (this : BrainMaps) : BrainMaps :=
  let temp_stack :=
    map (fun obj => if str_eqb (uuid obj) (uuid object) then object else obj)
      (_OBJ_STACK this) in
  set_stack temp_stack this.

(** The argument of [removeObject]: a string or an object. *)
Inductive Removal : Type :=
| by_string (s : JSString)
| by_object (o : Drawable).

Definition removeObject (object : Removal) (this : BrainMaps) : BrainMaps :=
  let temp_stack :=
    match object with
    | by_string s =>
        if startsWith s (lit "#")
        then filter (fun obj => negb (str_eqb (id obj) s)) (_OBJ_STACK this)
        else filter (fun obj => negb (str_eqb (uuid obj) s)) (_OBJ_STACK this)
    | by_object o =>
        filter (fun obj => negb (str_eqb (uuid obj) (uuid o)))
          (_OBJ_STACK this)
    end in
  set_stack temp_stack this.

(** *** Pointer events: [_trigger_events] *)

(** The hit tests of the 2d context, in the state the context is in
    during the dispatch. *)
Record HitTests : Type := {
  isPointInPath : Path2D -> Q -> Q -> bool;
  isPointInStroke : Path2D -> Q -> Q -> bool
}.

(** The variables the scan of the stack works on. *)
Record Scan : Type := {
  hit_objs : list Drawable;
  missed_objs : list Drawable;
  object_hit : bool;
  cache : option Drawable
}.

(** [this._objcache_last_hist && this._objcache_last_hist.uuid === obj.uuid] *)
Definition cached_is (s : Scan) (obj : Drawable) : bool :=
  match cache s with
  | Some last_hist => str_eqb (uuid last_hist) (uuid obj)
  | None => false
  end.

(** [this._objcache_last_hist && this._objcache_last_hist.uuid !== obj.uuid] *)
Definition cached_is_not (s : Scan) (obj : Drawable) : bool :=
  match cache s with
  | Some last_hist => negb (str_eqb (uuid last_hist) (uuid obj))
  | None => false
  end.

(** The block both hit branches run before [return]. *)
Definition on_hit (s : Scan) (obj : Drawable) : Scan :=
  {| hit_objs := hit_objs s ++ [obj];
     missed_objs :=
       if cached_is_not s obj
       then missed_objs s ++
              match cache s with Some last_hist => [last_hist] | None => [] end
       else missed_objs s;
     object_hit := true;
     cache := Some obj |}.

(** The last [if] of the arrow function, reached without a hit. *)
Definition after_tests (s : Scan) (obj : Drawable) : Scan :=
  if cached_is s obj then
    {| hit_objs := hit_objs s;
       missed_objs := missed_objs s ++ [obj];
       object_hit := object_hit s;
       cache := None |}
  else s.

(** ['fillObject' in obj && obj.fillObject === true] *)
Definition fill_mode (obj : Drawable) : bool :=
  match fillObject obj with Some true => true | _ => false end.

(** The arrow function mapped over the reversed stack. *)
Definition scan_step (ctx : HitTests) (mouseX mouseY : Q) (s : Scan)
  (obj : Drawable) : Scan :=
  if negb (object_hit s) then
    if fill_mode obj then
      if isPointInPath ctx (path obj) mouseX mouseY then on_hit s obj
      else after_tests s obj
    else
      if isPointInStroke ctx (path obj) mouseX mouseY then on_hit s obj
      else after_tests s obj
  else after_tests s obj.

Definition scan (ctx : HitTests) (mouseX mouseY : Q)
  (last_hist : option Drawable) (stack : list Drawable) : Scan :=
  fold_left (scan_step ctx mouseX mouseY) (rev stack)
    {| hit_objs := []; missed_objs := []; object_hit := false;
       cache := last_hist |}.

Definition call_if_present (cb : option Callback) (obj : Drawable)
  : list Invocation :=
  match cb with Some f => [Invoke f obj] | None => [] end.

(** The [switch] on the event type, for a hit object. *)
Definition hit_listener (eventType : EventType) (obj : Drawable)
  : list Invocation :=
  match eventType with
  | click => call_if_present (onClick obj) obj
  | doubleclick => call_if_present (onDoubleClick obj) obj
  | rightclick => call_if_present (onRightClick obj) obj
  | hover => call_if_present (onHover obj) obj
  | mouseleave => []
  end.

Definition leave_listener (obj : Drawable) : list Invocation :=
  call_if_present (onMouseLeave obj) obj.

(** What a call of [_trigger_events] gives: the value returned, the
    callbacks called, in order, and the instance afterwards. *)
Record Dispatch : Type := {
  returned : bool;
  called : list Invocation;
  after : BrainMaps
}.

(** [_trigger_events(mouseX, mouseY, eventType)], [dpi] being
    [window.devicePixelRatio]. *)
Definition _trigger_events (ctx : HitTests) (dpi : Q) (mouseX mouseY : Q)
  (eventType : EventType) (this : BrainMaps) : Dispatch :=
  let mouseX := mouseX * dpi in
  let mouseY := mouseY * dpi in
  let s := scan ctx mouseX mouseY (_objcache_last_hist this)
             (_OBJ_STACK this) in
  {| returned := object_hit s;
     called := flat_map (hit_listener eventType) (hit_objs s)
               ++ flat_map leave_listener (missed_objs s);
     after := set_cache (cache s) this |}.

(** The objects hit by a pointer event at a position. *)
Definition hit_test (ctx : HitTests) (dpi : Q) (mouseX mouseY : Q)
  (this : BrainMaps) : list Drawable :=
  hit_objs (scan ctx (mouseX * dpi) (mouseY * dpi) (_objcache_last_hist this)
              (_OBJ_STACK this)).

(** *** Painting: [draw] *)

(** A call received by the canvas element or its 2d context. *)
Inductive CanvasCall : Type :=
| setAttribute (name : string) (value : Q)
| clearRect (x y w h : Q)
| set_fillStyle (v : JSString)
| set_strokeStyle (v : JSString)
| set_lineWidth (v : Q)
| fill (p : Path2D)
| stroke (p : Path2D)
| call_drawText (cb : Callback) (obj : Drawable).

(** The only function the source hands to [requestAnimationFrame] is the
    arrow function of [draw]. *)
Inductive FrameCallback : Type :=
| paint_closure.

(** The page around the instance: the canvas (client size, calls
    received so far) and the window (device pixel ratio, animation frame
    callbacks waiting for the next frame). *)
Record Page : Type := {
  clientWidth : Q;
  clientHeight : Q;
  canvas_calls : list CanvasCall;
  devicePixelRatio : Q;
  animation_frame_callbacks : list FrameCallback
}.

Definition canvas_do (cs : list CanvasCall) (page : Page) : Page :=
  {| clientWidth := clientWidth page;
     clientHeight := clientHeight page;
     canvas_calls := canvas_calls page ++ cs;
     devicePixelRatio := devicePixelRatio page;
     animation_frame_callbacks := animation_frame_callbacks page |}.

(** [window.requestAnimationFrame(callback)]: the callback joins the
    list of animation frame callbacks of the window. *)
Definition requestAnimationFrame (callback : FrameCallback) (page : Page)
  : Page :=
  {| clientWidth := clientWidth page;
     clientHeight := clientHeight page;
     canvas_calls := canvas_calls page;
     devicePixelRatio := devicePixelRatio page;
     animation_frame_callbacks := animation_frame_callbacks page ++ [callback] |}.

Definition _fixDPI (page : Page) : Page :=
  let dpi := devicePixelRatio page in
  canvas_do [setAttribute "height" (clientHeight page * dpi);
             setAttribute "width" (clientWidth page * dpi)] page.

(** The calls [_drawObject(object)] makes on the context. *)
Definition _drawObject (object : Drawable) : list CanvasCall :=
  [match fillStyle object with
   | Some v => set_fillStyle v
   | None => set_fillStyle (lit "rgba(255, 255, 255, 1)")
   end;
   match strokeStyle object with
   | Some v => set_strokeStyle v
   | None => set_fillStyle (lit "rgba(0, 0, 0, 1)")
   end;
   match lineWidth object with
   | Some v => set_lineWidth v
   | None => set_lineWidth 2
   end]
  ++ (if fill_mode object then [fill (path object)] else [])
  ++ [stroke (path object)]
  ++ match drawText object with
     | Some cb => [call_drawText cb object]
     | None => []
     end.

(** The calls of one run of the arrow function of [draw]: one paint. *)
Definition paint (this : BrainMaps) (page : Page) : list CanvasCall :=
  clearRect 0 0 (clientWidth page) (clientHeight page)
  :: flat_map _drawObject (_OBJ_STACK this).

Definition run_frame_callback (this : BrainMaps) (callback : FrameCallback)
  (page : Page) : Page :=
  match callback with
  | paint_closure => canvas_do (paint this page) page
  end.

(** [draw()]. *)
Definition draw (this : BrainMaps) (page : Page) : Page :=
  let page := _fixDPI page in
  if (List.length (_OBJ_STACK this) =? 0)%nat then
    canvas_do [clearRect 0 0 (clientWidth page) (clientHeight page)] page
  else requestAnimationFrame paint_closure page.

(** The next display frame: the window runs every waiting animation
    frame callback once, in the order of the requests, and forgets
    them. *)
Definition next_frame (this : BrainMaps) (page : Page) : Page :=
  fold_left (fun pg callback => run_frame_callback this callback pg)
    (animation_frame_callbacks page)
    {| clientWidth := clientWidth page;
       clientHeight := clientHeight page;
       canvas_calls := canvas_calls page;
       devicePixelRatio := devicePixelRatio page;
       animation_frame_callbacks := [] |}.

(** [draw()] called [n] times in a row. *)
Fixpoint draw_times (n : nat) (this : BrainMaps) (page : Page) : Page :=
  match n with
  | O => page
  | S n' => draw_times n' this (draw this page)
  end.

(** The number of paints among the calls the canvas received: with a
    store that is not empty a surface is cleared by a paint only. *)
Definition is_clearRect (c : CanvasCall) : bool :=
  match c with clearRect _ _ _ _ => true | _ => false end.

Definition paints (page : Page) : nat :=
  List.length (filter is_clearRect (canvas_calls page)).

(** *** The factory: [createObject] *)

(** The third argument of [createObject]; [None] is a property left out. *)
Record RenderOptions : Type := {
  opt_fillStyle : option JSString;
  opt_strokeStyle : option JSString;
  opt_lineWidth : option Q
}.

(** A parameter with a default value. *)
Definition default {A : Type} (d : A) (arg : option A) : A :=
  match arg with Some v => v | None => d end.

(** One property under [_.merge(object, source)]: a value of the source
    that is not [undefined] replaces the one of the object. *)
Definition merge_property {A : Type} (object source : option A) : option A :=
  match source with Some v => Some v | None => object end.

(** [createObject(id, path, options, isFillObject)].  [v4] is the uuid
    generator, [v4 n] being what its call number [n] returns, and
    [calls] the number of calls made so far. *)
Definition createObject (v4 : nat -> JSString) (calls : nat)
  (id : JSString) (path : BrainMapsPath2D) (options : RenderOptions)
  (isFillObject : option bool) : Outcome (Drawable * nat) :=
  let fillStyle := default (lit "#FFFFFF") (opt_fillStyle options) in
  let strokeStyle := default (lit "#000000") (opt_strokeStyle options) in
  let lineWidth := default 2 (opt_lineWidth options) in
  let isFillObject := default false isFillObject in
  if negb (startsWith id (lit "#")) then
    Threw (Error "id must start with # and be a valid identifier")
  else
    let uid := v4 calls in
    Returned
      ({| uuid := uid;
          id := id;
          path := getPath path;
          fillObject := Some isFillObject;
          fillStyle := merge_property (Some (lit "#FFFFFF")) (Some fillStyle);
          strokeStyle :=
            merge_property (Some (lit "#000000")) (Some strokeStyle);
          lineWidth := merge_property (Some 1) (Some lineWidth);
          onHover := None; onClick := None; onMouseLeave := None;
          onRightClick := None; onDoubleClick := None; drawText := None;
          isFillObject := merge_property (Some false) (Some isFillObject) |},
       S calls).

(** *** Notions used to state the properties of the engine *)

(** The geometric test of the scan for one object: point in path for an
    object in fill mode, point in stroke otherwise. *)
Definition hits (ctx : HitTests) (mouseX mouseY : Q) (obj : Drawable) : bool :=
  if fill_mode obj then isPointInPath ctx (path obj) mouseX mouseY
  else isPointInStroke ctx (path obj) mouseX mouseY.

Definition has_id (identifier : JSString) (obj : Drawable) : bool :=
  str_eqb (id obj) identifier.

(** The first and the last entry of the store, in insertion order, with
    a given [id]. *)
Definition first_match (identifier : JSString) (this : BrainMaps)
  : option Drawable :=
  find (has_id identifier) (_OBJ_STACK this).

Definition last_match (identifier : JSString) (this : BrainMaps)
  : option Drawable :=
  find (has_id identifier) (rev (_OBJ_STACK this)).

(** At most one object of the list, or none. *)
Definition sole (o : option Drawable) : list Drawable :=
  match o with Some obj => [obj] | None => [] end.

(** *** A scene for the examples *)

(** Hit tests for paths made of rectangles: a point is in the path when
    it is in one of them, and never on a stroke. *)
Definition in_rect (x y : Q) (c : PathCall) : bool :=
  match c with
  | Path2D_rect rx ry w h =>
      num_le rx x && num_le x (rx + w) && num_le ry y && num_le y (ry + h)
  | _ => false
  end.

Definition rectangles : HitTests :=
  {| isPointInPath := fun p x y => existsb (in_rect x y) p;
     isPointInStroke := fun _ _ _ => false |}.

(** A filled rectangle with a hover and a leave callback. *)
Definition node (uuid id : JSString) (x y w h : Q)
  (onHover onMouseLeave : Callback) : Drawable :=
  {| uuid := uuid; id := id; path := [Path2D_rect x y w h];
     fillObject := Some true;
     fillStyle := Some (lit "#f44336"); strokeStyle := Some (lit "#000000");
     lineWidth := Some 2;
     onHover := Some onHover; onClick := None;
     onMouseLeave := Some onMouseLeave;
     onRightClick := None; onDoubleClick := None; drawText := None;
     isFillObject := Some true |}.

(** [obj] with its [fillObject] property replaced. *)
Definition updateObject_fill (obj : Drawable) (fillObject : option bool)
  : Drawable :=
  {| uuid := uuid obj; id := id obj; path := path obj;
     fillObject := fillObject;
     fillStyle := fillStyle obj; strokeStyle := strokeStyle obj;
     lineWidth := lineWidth obj;
     onHover := onHover obj; onClick := onClick obj;
     onMouseLeave := onMouseLeave obj;
     onRightClick := onRightClick obj; onDoubleClick := onDoubleClick obj;
     drawText := drawText obj; isFillObject := isFillObject obj |}.

(** Two overlapping squares with the same [id], in physical pixels. *)
Definition node_A : Drawable :=
  node (lit "0a0a") (lit "#node") 0 0 20 20 1%nat 2%nat.
Definition node_B : Drawable :=
  node (lit "0b0b") (lit "#node") 10 10 20 20 3%nat 4%nat.

(** The instance after [addObject(A); addObject(B)]. *)
Definition scene_AB : BrainMaps := set_stack [node_A; node_B] new_BrainMaps.

(** A canvas of 300 by 150 px that received no call, at a device pixel
    ratio of 2, with no animation frame callback waiting. *)
Definition blank_page : Page :=
  {| clientWidth := 300; clientHeight := 150; canvas_calls := [];
     devicePixelRatio := 2; animation_frame_callbacks := [] |}.

(** A uuid generator that numbers its results. *)
Definition numbering_v4 (n : nat) : JSString := lit "uuid-" ++ [N.of_nat n].

(** The position is inside the object [target] only: an object of the
    stack passes the geometric test exactly when it is [target]. *)
Definition inside_only (ctx : HitTests) (x y : Q) (stack : list Drawable)
  (target : Drawable) : Prop :=
  Forall (fun obj => hits ctx x y obj = str_eqb (uuid obj) (uuid target))
    stack.

(** The position is inside no object of the stack. *)
Definition inside_none (ctx : HitTests) (x y : Q) (stack : list Drawable)
  : Prop :=
  Forall (fun obj => hits ctx x y obj = false) stack.

(** The invariant of the store: no two entries with the same [uuid]. *)
Definition distinct_uuids (stack : list Drawable) : Prop :=
  NoDup (map uuid stack).

End Scene.

(** ** Text nodes: [textNode] *)

Module TextNode.
Import TextLayout Path Shapes Scene.

(** The options object given to [textNode]; [None] is a property left
    out. *)
Record TextOptionsArg : Type := {
  arg_textAlign : option JSString;
  arg_textSize : option Q;
  arg_textColor : option JSString;
  arg_textFont : option JSString;
  arg_textMaxWidth : option Q
}.

(** The [textOptions] of [textNode]: the destructured properties with
    their defaults, merged over an object of the same defaults. *)
Definition merged_options (arg : TextOptionsArg) : TextOptions :=
  {| textAlign := default (lit "center") (arg_textAlign arg);
     textSize := default 14 (arg_textSize arg);
     textColor := default (lit "#000000") (arg_textColor arg);
     textFont := default (lit "Arial") (arg_textFont arg);
     textMaxWidth := default 100 (arg_textMaxWidth arg) |}.

(** The width and the height given to [roundedRectangle]. *)
Definition node_width (size : Size) : Q :=
  Qmax (width size + 16) (Qmin (width size * (3 # 2)) (width size + 32)).

Definition node_height (size : Size) : Q :=
  Qmax (height size + 8) (Qmin (height size * (3 # 2)) (height size + 32)).

(** A call the arrow function assigned to [drawText] makes on the
    context. *)
Inductive TextCall : Type :=
| ctx_textAlign (v : JSString)
| ctx_font (px : Q) (family : JSString)
| ctx_fillStyle (v : JSString)
| ctx_textBaseline (v : JSString)
| ctx_fillText (text : JSString) (x y : Q).

(** The [switch] on [textOptions.textAlign]. *)
Definition posX_of (textOptions : TextOptions) (size : Size) (x : Q) : Q :=
  if str_eqb (textAlign textOptions) (lit "left") then x - width size / 2
  else if str_eqb (textAlign textOptions) (lit "right")
       then x + width size / 2
       else x.

(** [array.map((l, idx) => ...)]. *)
Fixpoint mapi_from {A B : Type} (f : A -> nat -> B) (idx : nat) (l : list A)
  : list B :=
  match l with
  | [] => []
  | a :: l' => f a idx :: mapi_from f (S idx) l'
  end.

Definition mapi {A B : Type} (f : A -> nat -> B) (l : list A) : list B :=
  mapi_from f 0 l.

Definition idx_num (idx : nat) : Q := inject_Z (Z.of_nat idx).

(** The body of the arrow function assigned to [drawText], [DPI] being
    [BrainMaps.DPI] when it runs. *)
Definition drawText_body (textOptions : TextOptions) (size : Size)
  (lines : list JSString) (x y : Q) (DPI : Q) : list TextCall :=
  let posX := posX_of textOptions size x in
  let posY := y in
  [ctx_textAlign (textAlign textOptions);
   ctx_font (textSize textOptions * DPI) (textFont textOptions);
   ctx_fillStyle (textColor textOptions);
   ctx_textBaseline (lit "middle")]
  ++ if (List.length lines =? 1)%nat then
       [ctx_fillText (nth 0 lines []) (posX * DPI) (posY * DPI)]
     else if (List.length lines mod 2 =? 1)%nat then
       mapi (fun l idx =>
               let offsetY :=
                 posY - ((length_num lines - 1) / 2 - idx_num idx)
                        * (textSize textOptions * (5 # 4)) in
               ctx_fillText l (posX * DPI) (offsetY * DPI)) lines
     else
       mapi (fun l idx =>
               let offsetY :=
                 posY - (length_num lines / 2 - (1 # 2) - idx_num idx)
                        * (textSize textOptions * (5 # 4)) in
               ctx_fillText l (posX * DPI) (offsetY * DPI)) lines.

(** Sequencing of calls that can throw. *)
Definition bind {A B : Type} (m : Outcome A) (k : A -> Outcome B)
  : Outcome B :=
  match m with
  | Returned a => k a
  | Threw e => Threw e
  | OutOfFuel => OutOfFuel
  end.

(** [textNodeObject.drawText = f]. *)
Definition set_drawText (obj : Drawable) (f : Callback) : Drawable :=
  {| uuid := uuid obj; id := id obj; path := path obj;
     fillObject := fillObject obj;
     fillStyle := fillStyle obj; strokeStyle := strokeStyle obj;
     lineWidth := lineWidth obj;
     onHover := onHover obj; onClick := onClick obj;
     onMouseLeave := onMouseLeave obj;
     onRightClick := onRightClick obj; onDoubleClick := onDoubleClick obj;
     drawText := Some f; isFillObject := isFillObject obj |}.

(** The options [textNode] gives to [createObject]. *)
Definition textnode_style : RenderOptions :=
  {| opt_fillStyle := Some (lit "#f44336");
     opt_strokeStyle := Some (lit "#000000");
     opt_lineWidth := Some 2 |}.

(** [textNode(text, x, y, options)].  [dpi] is the device pixel ratio
    while the path is built, [closure] the name under which the arrow
    function assigned to [drawText] is known; what that function does
    when it is called is [drawText_body] on the options, the size and
    the lines of this call. *)
Definition textNode (document : Document) (fuel : nat) (dpi : Q)
  (v4 : nat -> JSString) (calls : nat) (closure : Callback)
  (text : JSString) (x y : Q) (arg : TextOptionsArg)
  : Outcome (Drawable * nat) :=
  let textOptions := merged_options arg in
  bind (layoutText document fuel text textOptions) (fun layout =>
  bind (roundedRectangle dpi x y (node_width (size layout))
          (node_height (size layout)) 8) (fun node =>
  bind (createObject v4 calls (lit "#textnode") node textnode_style
          (Some true)) (fun created =>
  Returned (set_drawText (fst created) closure, snd created)))).

End TextNode.

(** ** The listeners the constructor of [BrainMaps] registers *)

Module Listeners.
Import Path Scene.

(** The properties of a mouse event the listeners read. *)
Record MouseEvent : Type := { offsetX : Q; offsetY : Q }.

(** What a listener leaves: the dispatch it made and whether it called
    [ev.preventDefault()]. *)
Record Handled : Type := {
  dispatched : Dispatch;
  defaultPrevented : bool
}.

Definition on_mousemove (ctx : HitTests) (dpi : Q) (ev : MouseEvent)
  (this : BrainMaps) : Handled :=
  {| dispatched :=
       _trigger_events ctx dpi (offsetX ev) (offsetY ev) hover this;
     defaultPrevented := false |}.

Definition on_click (ctx : HitTests) (dpi : Q) (ev : MouseEvent)
  (this : BrainMaps) : Handled :=
  {| dispatched :=
       _trigger_events ctx dpi (offsetX ev) (offsetY ev) click this;
     defaultPrevented := false |}.

Definition on_dblclick (ctx : HitTests) (dpi : Q) (ev : MouseEvent)
  (this : BrainMaps) : Handled :=
  {| dispatched :=
       _trigger_events ctx dpi (offsetX ev) (offsetY ev) doubleclick this;
     defaultPrevented := false |}.

Definition on_contextmenu (ctx : HitTests) (dpi : Q) (ev : MouseEvent)
  (this : BrainMaps) : Handled :=
  let preventDefault :=
    _trigger_events ctx dpi (offsetX ev) (offsetY ev) rightclick this in
  {| dispatched := preventDefault;
     defaultPrevented := if returned preventDefault then true else false |}.

(** The [resize] listener. *)
Definition on_resize (this : BrainMaps) (page : Page) : Page := draw this page.

End Listeners.

(** ** Notions used to state further properties *)

Module Notions.
Import TextLayout Path Shapes Scene TextNode.

(** The characters of a text that are not white space, in order. *)
Definition visible (s : JSString) : JSString :=
  filter (fun c => negb (isWhiteSpace c)) s.

(** A text of white space only, the empty text included. *)
Definition blank (s : JSString) : bool := forallb isWhiteSpace s.

(** [line] is made of the units [g], joined as they are, with or
    without the white space at its ends. *)
Definition line_of_units (line : JSString) (g : list JSString) : Prop :=
  g <> [] /\ (line = List.concat g \/ line = trim (List.concat g)).

(** The lines sealed so far fit, and so does the current line unless it
    is still empty with units to come. *)
Definition lines_fit (document : Document) (textOptions : TextOptions)
  (st : FillState) : Prop :=
  exists front,
    fill_lines st = front ++ [line_pointer st]
    /\ Forall (fun l => fits document textOptions l = true) front
    /\ (line_pointer st <> [] -> fits document textOptions (line_pointer st) = true)
    /\ (_temp_text st = [] -> fits document textOptions (line_pointer st) = true).

(** The characters that are not white space are all in the lines or in
    the units to come. *)
Definition text_kept (shown : JSString) (st : FillState) : Prop :=
  fill_inv st
  /\ visible (List.concat (fill_lines st))
     ++ visible (List.concat (_temp_text st)) = shown.

(** The lines are made of the units taken so far, in their order. *)
Definition units_grouped (units : list JSString) (st : FillState) : Prop :=
  exists front groups g,
    fill_lines st = front ++ [line_pointer st]
    /\ List.concat g = line_pointer st
    /\ Forall2 line_of_units front groups
    /\ List.concat (groups ++ [g]) ++ _temp_text st = units
    /\ (line_pointer st <> [] -> g <> [])
    /\ (_temp_text st = [] -> g <> []).

(** Every uuid of the stack came out of one of the first [calls] calls
    of the generator. *)
Definition issued (v4 : nat -> JSString) (calls : nat)
  (stack : list Drawable) : Prop :=
  Forall (fun obj => exists k, (k < calls)%nat /\ uuid obj = v4 k) stack.

(** In the stack the entries with the [id] of [target] are the entries
    with its [uuid]. *)
Definition same_entries (stack : list Drawable) (target : Drawable) : Prop :=
  Forall (fun obj =>
            str_eqb (id obj) (id target) = str_eqb (uuid obj) (uuid target))
    stack.

(** The texts and the vertical positions of the [fillText] calls. *)
Definition fillText_texts (calls : list TextCall) : list JSString :=
  flat_map (fun c => match c with ctx_fillText t _ _ => [t] | _ => [] end)
    calls.

Definition fillText_ys (calls : list TextCall) : list Q :=
  flat_map (fun c => match c with ctx_fillText _ _ y => [y] | _ => [] end)
    calls.

(** The vertical position of line [idx] out of [n], centred on [y] with
    a line height of five quarters of the text size. *)
Definition centred_y (y textSize DPI : Q) (n idx : nat) : Q :=
  (y - ((inject_Z (Z.of_nat n) - 1) / 2 - inject_Z (Z.of_nat idx))
       * (textSize * (5 # 4))) * DPI.

(** A third square, away from the two of [scene_AB]. *)
Definition node_C : Drawable :=
  node (lit "0c0c") (lit "#other") 100 100 20 20 5%nat 6%nat.

Definition scene_ABC : BrainMaps :=
  set_stack [node_A; node_B; node_C] new_BrainMaps.

(** No option given: [textNode] takes its defaults. *)
Definition no_options : TextOptionsArg :=
  {| arg_textAlign := None; arg_textSize := None; arg_textColor := None;
     arg_textFont := None; arg_textMaxWidth := None |}.

End Notions.

(** * Properties *)

(** ** Text layout *)

Module TextLayoutFacts.
Import TextLayout.

(** *** Lists used as arrays *)

Lemma set_last_snoc (front : list JSString) (x v : JSString) :
  set_last (front ++ [x]) v = front ++ [v].
Proof.
  induction front as [|y front IH]; simpl; [reflexivity|].
  rewrite IH. destruct front; reflexivity.
Qed.

Lemma last_elem_snoc (front : list JSString) (x : JSString) :
  last_elem (front ++ [x]) = x.
Proof. unfold last_elem. apply last_last. Qed.

Lemma nonempty_snoc (l : list JSString) :
  l <> [] -> exists front x, l = front ++ [x].
Proof.
  intros H. destruct (exists_last H) as [front [x ->]]. eauto.
Qed.

(** *** [trim] *)

Lemma trimStart_app (s u : JSString) :
  trimStart (s ++ u)
  = match trimStart s with [] => trimStart u | t => t ++ u end.
Proof.
  induction s as [|c s IH]; simpl.
  - now destruct (trimStart u).
  - destruct (isWhiteSpace c); [exact IH | reflexivity].
Qed.

Lemma trimStart_length (s : JSString) :
  (List.length (trimStart s) <= List.length s)%nat.
Proof.
  induction s as [|c s IH]; simpl; [lia|].
  destruct (isWhiteSpace c); simpl; lia.
Qed.

Lemma trimStart_idempotent (s : JSString) : trimStart (trimStart s) = trimStart s.
Proof.
  induction s as [|c s IH]; simpl; [reflexivity|].
  destruct (isWhiteSpace c) eqn:E; [exact IH|]. simpl. now rewrite E.
Qed.

Lemma trimEnd_app (a b : JSString) :
  trimEnd (a ++ b) = match trimEnd b with [] => trimEnd a | e => a ++ e end.
Proof.
  unfold trimEnd. rewrite rev_app_distr, trimStart_app.
  destruct (trimStart (rev b)) as [|c t] eqn:E; [reflexivity|].
  rewrite rev_app_distr, rev_involutive.
  destruct (rev (c :: t)) eqn:R; [|reflexivity].
  apply (f_equal (@List.length _)) in R. rewrite length_rev in R.
  discriminate.
Qed.

Lemma trimEnd_length (s : JSString) :
  (List.length (trimEnd s) <= List.length s)%nat.
Proof.
  unfold trimEnd. rewrite length_rev.
  etransitivity; [apply trimStart_length|]. now rewrite length_rev.
Qed.

Lemma trimEnd_idempotent (s : JSString) : trimEnd (trimEnd s) = trimEnd s.
Proof.
  unfold trimEnd. now rewrite rev_involutive, trimStart_idempotent.
Qed.

(** Trimming the end of a text that starts with no white space leaves a
    text that starts with none. *)
Lemma trimStart_trimEnd (s : JSString) :
  trimStart s = s -> trimStart (trimEnd s) = trimEnd s.
Proof.
  destruct s as [|c s]; [reflexivity|]. simpl.
  destruct (isWhiteSpace c) eqn:E.
  - intros H. apply (f_equal (@List.length _)) in H.
    pose proof (trimStart_length s). simpl in H. lia.
  - intros _. change (c :: s) with ([c] ++ s). rewrite trimEnd_app.
    destruct (trimEnd s); simpl.
    + unfold trimEnd. simpl. rewrite E. simpl. now rewrite E.
    + now rewrite E.
Qed.

Lemma trim_idempotent (s : JSString) : trim (trim s) = trim s.
Proof.
  unfold trim.
  rewrite (trimStart_trimEnd (trimStart s) (trimStart_idempotent s)).
  apply trimEnd_idempotent.
Qed.

Lemma trim_app_length (s u : JSString) :
  (List.length (trim s) <= List.length (trim (s ++ u)))%nat.
Proof.
  unfold trim. rewrite trimStart_app.
  destruct (trimStart s) as [|c t] eqn:E; [simpl; lia|].
  rewrite trimEnd_app. destruct (trimEnd u).
  - lia.
  - rewrite length_app. pose proof (trimEnd_length (c :: t)). lia.
Qed.

(** *** The punctuation loop *)

Lemma is_cnpunc_iff (u : JSString) :
  is_cnpunc u = true <-> In u (split_chars cnpunc).
Proof.
  unfold is_cnpunc, includes. rewrite existsb_exists. split.
  - intros [x [Hin E]].
    assert (x = u); [|now subst].
    clear Hin. revert x E. induction u as [|a u IH]; intros [|b x]; simpl;
      try discriminate; [reflexivity|].
    unfold codeunit_eqb. intros H. apply andb_true_iff in H.
    destruct H as [H1 H2]. apply N.eqb_eq in H1. subst.
    f_equal. now apply IH.
  - intros H. exists u. split; [exact H|].
    clear H. induction u as [|a u IH]; simpl; [reflexivity|].
    unfold codeunit_eqb. now rewrite N.eqb_refl.
Qed.


Lemma cnpunc_step_attach (i : nat) (front : list JSString) (x p : JSString) :
  is_cnpunc p = true ->
  cnpunc_step (S i) (front ++ [x]) p = front ++ [x ++ p].
Proof.
  intros Hp. unfold cnpunc_step. fold (is_cnpunc p). rewrite Hp. simpl.
  now rewrite set_last_snoc, last_elem_snoc.
Qed.

Lemma cnpunc_step_push (i : nat) (acc : list JSString) (u : JSString) :
  is_cnpunc u = false -> cnpunc_step i acc u = acc ++ [u].
Proof.
  intros Hu. unfold cnpunc_step. fold (is_cnpunc u). rewrite Hu.
  now rewrite andb_false_r.
Qed.

Lemma cnpunc_loop_app (us vs : list JSString) :
  forall i acc,
    cnpunc_loop i acc (us ++ vs)
    = cnpunc_loop (i + List.length us) (cnpunc_loop i acc us) vs.
Proof.
  induction us as [|u us IH]; intros i acc; simpl.
  - now rewrite Nat.add_0_r.
  - rewrite IH. f_equal. lia.
Qed.

(** Once the array ends with a unit [x], the rest of the loop leaves
    what is before [x] alone and only ever appends to [x]. *)
Lemma cnpunc_loop_keeps (rest : list JSString) :
  forall i front x,
    exists more tail,
      cnpunc_loop (S i) (front ++ [x]) rest = front ++ (x ++ more) :: tail.
Proof.
  induction rest as [|u rest IH]; intros i front x; cbn [cnpunc_loop].
  - exists [], []. now rewrite app_nil_r.
  - destruct (is_cnpunc u) eqn:Hu.
    + rewrite cnpunc_step_attach by assumption.
      destruct (IH (S i) front (x ++ u)) as [more [tail E]].
      exists (u ++ more), tail. rewrite <- app_assoc in E. exact E.
    + rewrite cnpunc_step_push by assumption.
      destruct (IH (S i) (front ++ [x]) u) as [more [tail E]].
      exists [], ((u ++ more) :: tail).
      rewrite app_nil_r. etransitivity; [exact E|].
      now rewrite <- app_assoc.
Qed.

Lemma merge_cnpunc_nonempty (us : list JSString) :
  us <> [] -> merge_cnpunc us <> [].
Proof.
  destruct us as [|u us]; [congruence|]. intros _.
  unfold merge_cnpunc. cbn [cnpunc_loop].
  change (cnpunc_step 0 [] u) with ([] ++ [u]).
  destruct (cnpunc_loop_keeps us 0 [] u) as [more [tail E]].
  rewrite E. discriminate.
Qed.

Lemma punctuation_marks_iff (u : JSString) :
  In u punctuation_marks <-> is_cnpunc u = true.
Proof.
  rewrite is_cnpunc_iff.
  change (split_chars cnpunc) with punctuation_marks. tauto.
Qed.

Lemma removelast_snoc (front : list JSString) (x : JSString) :
  removelast (front ++ [x]) = front.
Proof. apply removelast_last. Qed.

(** C7: the first unit opens the first output unit.  A later unit that
    is one of the ten punctuation marks opens no unit of its own: it is
    appended to the output unit that the units before it ended with, all
    the output units before that one staying as they were.  A later unit
    that is none of the marks opens a new output unit after those.  In
    both cases the units that follow can only append to the last output
    unit.  So of the three units of two ideographs and a full-width
    comma, the ideographs stay two units and the comma joins the
    second. *)
Theorem cnpunc_attaches_to_previous_unit
  (us : list JSString) (u : JSString) (rest : list JSString) :
  us <> [] ->
  merge_cnpunc [u] = [u]
  /\ merge_cnpunc us <> []
  /\ (In u punctuation_marks ->
      merge_cnpunc (us ++ [u])
      = removelast (merge_cnpunc us) ++ [last_elem (merge_cnpunc us) ++ u]
      /\ exists more tail,
           merge_cnpunc (us ++ u :: rest)
           = removelast (merge_cnpunc us)
             ++ (last_elem (merge_cnpunc us) ++ u ++ more) :: tail)
  /\ (~ In u punctuation_marks ->
      merge_cnpunc (us ++ [u]) = merge_cnpunc us ++ [u]
      /\ exists more tail,
           merge_cnpunc (us ++ u :: rest)
           = merge_cnpunc us ++ (u ++ more) :: tail).
Proof.
  intros Hus.
  pose proof (merge_cnpunc_nonempty us Hus) as Hne.
  destruct (nonempty_snoc _ Hne) as [front [prev E]].
  assert (Hlen : exists n, List.length us = S n)
    by (destruct us; [congruence | simpl; eauto]).
  destruct Hlen as [n Hn].
  assert (Hloop : forall tail,
             merge_cnpunc (us ++ u :: tail)
             = cnpunc_loop (S (S n))
                 (cnpunc_step (S n) (front ++ [prev]) u) tail).
  { intros tail. unfold merge_cnpunc. rewrite cnpunc_loop_app.
    cbn [cnpunc_loop Nat.add]. rewrite Hn. fold (merge_cnpunc us).
    now rewrite E. }
  split; [reflexivity|]. split; [exact Hne|].
  rewrite E, removelast_snoc, last_elem_snoc. split.
  - intros Hmark. apply punctuation_marks_iff in Hmark. split.
    + rewrite (Hloop []). cbn [cnpunc_loop].
      now apply cnpunc_step_attach.
    + rewrite (Hloop rest), cnpunc_step_attach by assumption.
      destruct (cnpunc_loop_keeps rest (S n) front (prev ++ u))
        as [more [tail E']].
      exists more, tail. rewrite <- app_assoc in E'. exact E'.
  - intros Hnot.
    assert (Hplain : is_cnpunc u = false).
    { destruct (is_cnpunc u) eqn:X; [|reflexivity].
      apply punctuation_marks_iff in X. contradiction. }
    split.
    + rewrite (Hloop []). cbn [cnpunc_loop].
      now apply cnpunc_step_push.
    + rewrite (Hloop rest), cnpunc_step_push by assumption.
      destruct (cnpunc_loop_keeps rest (S n) (front ++ [prev]) u)
        as [more [tail E']].
      exists more, tail. exact E'.
Qed.

(** The two ideographs stay two units and the comma joins the second:
    the first unit opens a unit, the second ideograph is no mark and
    opens another, the comma is a mark and is appended to it. *)
Lemma cnpunc_attaches_to_previous_unit_witness :
  merge_cnpunc [[wan]] = [[wan]]
  /\ merge_cnpunc [[wan]; [jun]] = [[wan]; [jun]]
  /\ merge_cnpunc [[wan]; [jun]; [fullwidth_comma]]
     = [[wan]; [jun; fullwidth_comma]].
Proof.
  destruct (cnpunc_attaches_to_previous_unit [[wan]] [wan] []
              ltac:(discriminate)) as [Hwan _].
  destruct (cnpunc_attaches_to_previous_unit [[wan]] [jun] []
              ltac:(discriminate)) as [_ [_ [_ Hplain]]].
  destruct Hplain as [Hjun _].
  { simpl. intuition discriminate. }
  destruct (cnpunc_attaches_to_previous_unit [[wan]; [jun]]
              [fullwidth_comma] [] ltac:(discriminate))
    as [_ [_ [Hmark _]]].
  destruct Hmark as [Hcomma _].
  { simpl. auto. }
  assert (Htwo : merge_cnpunc [[wan]; [jun]] = [[wan]; [jun]]).
  { etransitivity; [exact Hjun|].
    exact (f_equal (fun l => l ++ [[jun]]) Hwan). }
  split; [exact Hwan|]. split; [exact Htwo|].
  etransitivity; [exact Hcomma|].
  exact (f_equal
           (fun l => removelast l ++ [last_elem l ++ [fullwidth_comma]])
           Htwo).
Defined.

(** The examples of the specification. *)
Example units_wan_jun_comma :
  layout_units [wan; jun; fullwidth_comma]
  = Some [[wan]; [jun; fullwidth_comma]].
Proof. reflexivity. Qed.

Example units_mixed_script :
  layout_units (lit "A,b." ++ [wan; jun])
  = Some [lit "A,b."; [wan]; [jun]].
Proof. reflexivity. Qed.

Example units_leading_punctuation :
  layout_units [fullwidth_comma; wan] = Some [[fullwidth_comma]; [wan]].
Proof. reflexivity. Qed.

(** *** The line-fill loop *)

Section FillLoop.
Variable document : Document.
Variable textOptions : TextOptions.

Local Abbreviation round := (fill_round document textOptions).
Local Abbreviation loop := (fill_loop document textOptions).
Local Abbreviation measured := (measured document textOptions).
Local Abbreviation fits := (fits document textOptions).
Local Abbreviation accepted_widths := (accepted_widths document textOptions).

Lemma fill_round_cons (st : FillState) (u : JSString) (rest : list JSString) :
  _temp_text st = u :: rest ->
  round st =
  if fits (line_pointer st ++ u) then
    {| _temp_text := rest;
       fill_lines := set_last (fill_lines st) (line_pointer st ++ u);
       line_pointer := line_pointer st ++ u;
       _maxWidth := Z.max (measured (line_pointer st ++ u)) (_maxWidth st) |}
  else if negb (List.length (last_elem (fill_lines st)) =? 0)%nat then
    {| _temp_text := u :: rest;
       fill_lines :=
         set_last (fill_lines st) (trim (last_elem (fill_lines st))) ++ [[]];
       line_pointer := [];
       _maxWidth := _maxWidth st |}
  else st.
Proof.
  intros E. unfold fill_round, TextLayout.fits, TextLayout.measured.
  rewrite E. reflexivity.
Qed.

(** A unit that does not fit into an empty line leaves every variable of
    the loop as it was. *)
Lemma fill_round_stuck (st : FillState) (u : JSString) (rest : list JSString) :
  _temp_text st = u :: rest ->
  line_pointer st = [] ->
  last_elem (fill_lines st) = [] ->
  fits u = false ->
  round st = st.
Proof.
  intros Et Ep El Hu. rewrite (fill_round_cons st u rest Et).
  rewrite Ep, El. simpl. now rewrite Hu.
Qed.

Lemma fill_loop_stuck (st : FillState) (u : JSString) (rest : list JSString) :
  _temp_text st = u :: rest ->
  line_pointer st = [] ->
  last_elem (fill_lines st) = [] ->
  fits u = false ->
  forall fuel, loop fuel st = None.
Proof.
  intros Et Ep El Hu fuel. induction fuel as [|fuel IH].
  - simpl. now rewrite Et.
  - cbn [fill_loop]. rewrite Et.
    rewrite (fill_round_stuck st u rest Et Ep El Hu).
    exact IH.
Qed.

Lemma fill_inv_init (units : list JSString) : fill_inv (fill_init units).
Proof. split; [discriminate | reflexivity]. Qed.

Lemma fill_inv_round (st : FillState) : fill_inv st -> fill_inv (round st).
Proof.
  intros [Hne Hlp].
  destruct (_temp_text st) as [|u rest] eqn:Et.
  - unfold fill_round. rewrite Et. simpl.
    destruct (nonempty_snoc _ Hne) as [front [x E]].
    destruct (num_le _ _).
    + split; simpl.
      * rewrite E, set_last_snoc. now destruct front.
      * rewrite E, set_last_snoc. now rewrite last_elem_snoc.
    + destruct (negb _); [|now split].
      split; simpl.
      * now destruct (set_last (fill_lines st) _).
      * now rewrite last_elem_snoc.
  - rewrite (fill_round_cons st u rest Et).
    destruct (nonempty_snoc _ Hne) as [front [x E]].
    destruct (fits _).
    + split; simpl.
      * rewrite E, set_last_snoc. now destruct front.
      * rewrite E, set_last_snoc. now rewrite last_elem_snoc.
    + destruct (negb _); [|now split].
      split; simpl.
      * now destruct (set_last (fill_lines st) _).
      * now rewrite last_elem_snoc.
Qed.

(** When every unit fits into a line of its own, the loop ends. *)
Lemma fill_loop_terminates (fuel : nat) :
  forall st,
    fill_inv st ->
    Forall (fun u => fits u = true) (_temp_text st) ->
    (rounds_left st <= fuel)%nat ->
    exists st', loop fuel st = Some st'.
Proof.
  induction fuel as [|fuel IH]; intros st Hinv Hfit Hfuel.
  - unfold rounds_left in Hfuel.
    destruct (_temp_text st) as [|u rest] eqn:Et; simpl in Hfuel; [|lia].
    exists st. simpl. now rewrite Et.
  - destruct (_temp_text st) as [|u rest] eqn:Et.
    + exists st. simpl. now rewrite Et.
    + cbn [fill_loop]. rewrite Et.
      apply IH.
      * now apply fill_inv_round.
      * rewrite (fill_round_cons st u rest Et).
        destruct (fits _); [simpl; now inversion Hfit|].
        destruct (negb _); simpl; now rewrite ?Et.
      * unfold rounds_left in *. rewrite Et in Hfuel. simpl in Hfuel.
        rewrite (fill_round_cons st u rest Et).
        destruct (fits (line_pointer st ++ u)) eqn:Hc.
        -- simpl. destruct (line_pointer st ++ u); lia.
        -- destruct Hinv as [_ Hlp]. rewrite <- Hlp.
           destruct (line_pointer st) as [|c lp] eqn:Ep.
           ++ simpl in Hc. inversion Hfit; congruence.
           ++ simpl. lia.
Qed.

Lemma maximum_max (w base : Z) (ws : list Z) :
  maximum (Z.max w base) ws = Z.max w (maximum base ws).
Proof.
  induction ws as [|x ws IH]; simpl; [reflexivity|].
  rewrite IH. lia.
Qed.

(** [_maxWidth] is the running maximum of the accepted widths. *)
Lemma fill_loop_maxWidth (fuel : nat) :
  forall st st',
    loop fuel st = Some st' ->
    _maxWidth st' = maximum (_maxWidth st) (accepted_widths fuel st).
Proof.
  induction fuel as [|fuel IH]; intros st st' H.
  - simpl in H.
    destruct (_temp_text st) eqn:Et; [|discriminate].
    inversion H; subst. simpl. now rewrite Et.
  - cbn [fill_loop] in H. cbn [TextLayout.accepted_widths].
    destruct (_temp_text st) as [|u rest] eqn:Et.
    + now inversion H; subst.
    + rewrite (IH _ _ H). rewrite (fill_round_cons st u rest Et).
      destruct (fits (line_pointer st ++ u)); simpl.
      * now rewrite maximum_max, Z.max_comm.
      * now destruct (negb _).
Qed.

(** Every accepted width is at most [textMaxWidth]. *)
Lemma accepted_widths_bound (fuel : nat) :
  forall st,
    Forall (fun w => inject_Z w <= textMaxWidth textOptions)
      (accepted_widths fuel st).
Proof.
  induction fuel as [|fuel IH]; intros st; cbn [TextLayout.accepted_widths].
  - destruct (_temp_text st); constructor.
  - destruct (_temp_text st) as [|u rest]; [constructor|].
    apply Forall_app. split; [|apply IH].
    destruct (fits (line_pointer st ++ u)) eqn:Hc; constructor; [|constructor].
    now apply Qle_bool_iff.
Qed.

(** *** The box width and the lines *)

Lemma maximum_snoc (ws : list Z) (w : Z) :
  maximum 0 (ws ++ [w]) = Z.max w (maximum 0 ws).
Proof.
  unfold maximum. induction ws as [|x ws IH]; simpl; [lia|].
  rewrite IH. lia.
Qed.

Lemma maximum_nonneg (ws : list Z) : (0 <= maximum 0 ws)%Z.
Proof. unfold maximum. induction ws as [|x ws IH]; simpl; lia. Qed.

Lemma max_line_width_snoc (ls : list JSString) (l : JSString) :
  max_line_width document textOptions (ls ++ [l])
  = Z.max (measured l) (max_line_width document textOptions ls).
Proof.
  unfold max_line_width. rewrite map_app. cbn [map]. apply maximum_snoc.
Qed.

Lemma measured_trim (l : JSString) : measured (trim l) = measured l.
Proof. unfold TextLayout.measured. now rewrite trim_idempotent. Qed.

Local Abbreviation width_inv := (width_inv document textOptions).

Lemma width_inv_round (st : FillState) :
  monotone_measure document textOptions ->
  width_inv st -> width_inv (round st).
Proof.
  intros [Hempty Hmono] [Hinv Hw].
  split; [now apply fill_inv_round|].
  destruct (_temp_text st) as [|u rest] eqn:Et.
  - unfold fill_round. rewrite Et.
    destruct Hinv as [Hne Hlp].
    destruct (nonempty_snoc _ Hne) as [front [x E]].
    rewrite E, last_elem_snoc in Hlp.
    change (Array_toString (firstn 1 [])) with (@nil CodeUnit).
    rewrite app_nil_r. fold (measured (line_pointer st)).
    fold (fits (line_pointer st)).
    rewrite E in Hw. rewrite max_line_width_snoc in Hw.
    destruct (fits (line_pointer st)); simpl.
    + rewrite E, set_last_snoc, max_line_width_snoc, Hw, Hlp. lia.
    + rewrite E, last_elem_snoc, set_last_snoc.
      destruct (negb _); simpl.
      * rewrite !max_line_width_snoc, measured_trim, Hempty, Hw.
        pose proof (maximum_nonneg
                      (map (TextLayout.measured document textOptions) front)).
        unfold max_line_width. lia.
      * now rewrite E, max_line_width_snoc.
  - rewrite (fill_round_cons st u rest Et).
    destruct Hinv as [Hne Hlp].
    destruct (nonempty_snoc _ Hne) as [front [x E]].
    rewrite E, last_elem_snoc in Hlp.
    rewrite E in Hw. rewrite max_line_width_snoc in Hw.
    destruct (fits (line_pointer st ++ u)); simpl.
    + rewrite E, set_last_snoc, max_line_width_snoc, Hw, Hlp.
      pose proof (Hmono x u). lia.
    + rewrite E, last_elem_snoc, set_last_snoc.
      destruct (negb _); simpl.
      * rewrite !max_line_width_snoc, measured_trim, Hempty, Hw.
        pose proof (maximum_nonneg
                      (map (TextLayout.measured document textOptions) front)).
        unfold max_line_width. lia.
      * now rewrite E, max_line_width_snoc.
Qed.

Lemma width_inv_init (units : list JSString) :
  monotone_measure document textOptions -> width_inv (fill_init units).
Proof.
  intros [Hempty _]. split; [apply fill_inv_init|].
  unfold max_line_width. simpl. now rewrite Hempty.
Qed.

Lemma width_inv_loop (fuel : nat) :
  monotone_measure document textOptions ->
  forall st st',
    width_inv st -> loop fuel st = Some st' -> width_inv st'.
Proof.
  intros Hm. induction fuel as [|fuel IH]; intros st st' Hinv H.
  - simpl in H. destruct (_temp_text st); [|discriminate].
    now inversion H; subst.
  - cbn [fill_loop] in H. destruct (_temp_text st) as [|u rest].
    + now inversion H; subst.
    + apply (IH (round st)); [now apply width_inv_round | exact H].
Qed.

End FillLoop.

(** With a positive maximum width the first branch is not taken. *)
Lemma positive_width_breaks (textOptions : TextOptions) :
  0 < textMaxWidth textOptions -> num_le (textMaxWidth textOptions) 0 = false.
Proof.
  intros H. unfold num_le. destruct (Qle_bool _ _) eqn:E; [|reflexivity].
  apply Qle_bool_iff in E. exfalso. exact (Qlt_not_le _ _ H E).
Qed.

Lemma layoutText_breaking (document : Document) (fuel : nat)
  (text : JSString) (textOptions : TextOptions) (units : list JSString) :
  0 < textMaxWidth textOptions ->
  layout_units text = Some units ->
  layoutText document fuel text textOptions =
  match fill_loop document textOptions fuel (fill_init units) with
  | None => OutOfFuel
  | Some st => Returned (fill_result textOptions st)
  end.
Proof.
  intros Hpos Hu. unfold layoutText.
  rewrite (positive_width_breaks _ Hpos).
  unfold layout_units in Hu. destruct (String_match text); [|discriminate].
  now inversion Hu.
Qed.

(** When the first unit of a text is wider than the maximum width, no
    amount of rounds lets [layoutText] return. *)
Lemma layoutText_wide_first_unit (document : Document) (text : JSString)
  (textOptions : TextOptions) (u : JSString) (rest : list JSString) :
  0 < textMaxWidth textOptions ->
  layout_units text = Some (u :: rest) ->
  fits document textOptions u = false ->
  forall fuel, layoutText document fuel text textOptions = OutOfFuel.
Proof.
  intros Hpos Hu Hwide fuel.
  rewrite (layoutText_breaking document fuel text textOptions _ Hpos Hu).
  now rewrite (fill_loop_stuck document textOptions (fill_init (u :: rest))
                 u rest eq_refl eq_refl eq_refl Hwide fuel).
Qed.

(** When every unit fits into a line of its own, [layoutText] returns
    within two rounds for each unit. *)
Lemma layoutText_returns (document : Document) (text : JSString)
  (textOptions : TextOptions) (units : list JSString) (fuel : nat) :
  0 < textMaxWidth textOptions ->
  layout_units text = Some units ->
  Forall (fun u => fits document textOptions u = true) units ->
  (2 * List.length units <= fuel)%nat ->
  exists r, layoutText document fuel text textOptions = Returned r.
Proof.
  intros Hpos Hu Hfit Hfuel.
  rewrite (layoutText_breaking document fuel text textOptions _ Hpos Hu).
  destruct (fill_loop_terminates document textOptions fuel (fill_init units))
    as [st E].
  - apply fill_inv_init.
  - exact Hfit.
  - unfold rounds_left. simpl. simpl in Hfuel. lia.
  - rewrite E. eauto.
Qed.

(** C1: with characters 10 px wide and a maximum width of 30 px, the
    word hello is one unit 50 px wide.  It is rejected from the empty
    first line, the loop changes nothing, and [layoutText] does not
    return, whatever the number of rounds. *)
Theorem layoutText_overlong_unit_never_returns :
  forall fuel,
    layoutText (fixed_width_document 10 21) fuel (lit "hello")
      (options_width 30) = OutOfFuel.
Proof.
  apply (layoutText_wide_first_unit (fixed_width_document 10 21)
           (lit "hello") (options_width 30) (lit "hello") []).
  - reflexivity.
  - reflexivity.
  - reflexivity.
Qed.

(** The same with a unit that fits before the one that does not: the
    first line is sealed, and the loop stops changing on the second. *)
Example layoutText_overlong_second_unit :
  forall fuel,
    layoutText (fixed_width_document 10 21) fuel (lit "a hello")
      (options_width 30) = OutOfFuel.
Proof.
  intros fuel.
  rewrite (layoutText_breaking _ fuel _ _ [lit "a "; lit "hello"])
    by reflexivity.
  destruct fuel as [|[|fuel]]; [reflexivity | reflexivity |].
  pose (st := {| _temp_text := [lit "hello"]; fill_lines := [lit "a"; []];
                 line_pointer := []; _maxWidth := 10 |}).
  change (fill_loop (fixed_width_document 10 21) (options_width 30)
            (S (S fuel)) (fill_init [lit "a "; lit "hello"]))
    with (fill_loop (fixed_width_document 10 21) (options_width 30) fuel st).
  now rewrite (fill_loop_stuck (fixed_width_document 10 21) (options_width 30)
                 st (lit "hello") [] eq_refl eq_refl eq_refl eq_refl fuel).
Qed.

Lemma maximum_bound (bound : Q) (ws : list Z) :
  0 <= bound ->
  Forall (fun w => inject_Z w <= bound) ws ->
  inject_Z (maximum 0 ws) <= bound.
Proof.
  intros H0 H. unfold maximum. induction H as [|w ws Hw _ IH]; simpl.
  - exact H0.
  - destruct (Z.max_spec w (fold_right Z.max 0%Z ws)) as [[_ ->]|[_ ->]];
      assumption.
Qed.

Lemma layoutText_width_bound (document : Document) (fuel : nat)
  (text : JSString) (textOptions : TextOptions) (r : Layout) :
  0 < textMaxWidth textOptions ->
  layoutText document fuel text textOptions = Returned r ->
  width (size r)
  = Qmin (inject_Z (observed_max_width document fuel text textOptions))
      (textMaxWidth textOptions)
  /\ inject_Z (observed_max_width document fuel text textOptions)
     <= textMaxWidth textOptions.
Proof.
  intros Hpos H. unfold layoutText in H.
  rewrite (positive_width_breaks _ Hpos) in H.
  unfold observed_max_width.
  destruct (String_match text) as [text_groups|]; [|discriminate].
  destruct (fill_loop _ _ _ _) as [st|] eqn:E; [|discriminate].
  inversion H; subst r; clear H. simpl.
  rewrite (fill_loop_maxWidth _ _ _ _ _ E). simpl. split; [reflexivity|].
  apply maximum_bound; [now apply Qlt_le_weak|].
  apply accepted_widths_bound.
Qed.

(** C9: when the maximum width is positive, the box that [layoutText]
    returns is as wide as the smaller of the largest line width observed
    and the maximum width, and its height is the number of lines times
    the font size plus a quarter of the font size between two lines. *)
Theorem layoutText_box (document : Document) (fuel : nat) (text : JSString)
  (textOptions : TextOptions) (r : Layout) :
  0 < textMaxWidth textOptions ->
  layoutText document fuel text textOptions = Returned r ->
  width (size r)
  = Qmin (inject_Z (observed_max_width document fuel text textOptions))
      (textMaxWidth textOptions)
  /\ height (size r)
     = length_num (lines r) * textSize textOptions
       + (length_num (lines r) - 1) * (1 # 4) * textSize textOptions.
Proof.
  intros Hpos H. unfold layoutText in H.
  rewrite (positive_width_breaks _ Hpos) in H.
  unfold observed_max_width.
  destruct (String_match text) as [text_groups|]; [|discriminate].
  destruct (fill_loop _ _ _ _) as [st|] eqn:E; [|discriminate].
  inversion H; subst r; clear H. simpl.
  rewrite (fill_loop_maxWidth _ _ _ _ _ E). simpl. auto.
Qed.

(** The minimum is always its first argument: no accepted line is wider
    than the maximum width. *)
Lemma layoutText_box_within_maxWidth (document : Document) (fuel : nat)
  (text : JSString) (textOptions : TextOptions) (r : Layout) :
  0 < textMaxWidth textOptions ->
  layoutText document fuel text textOptions = Returned r ->
  width (size r)
  == inject_Z (observed_max_width document fuel text textOptions).
Proof.
  intros Hpos H.
  destruct (layoutText_width_bound document fuel text textOptions r Hpos H)
    as [-> Hbound].
  now apply Q.min_l.
Qed.

(** Under a monotone measurement the observed maximum is the largest
    measured width among the lines returned. *)
Lemma layoutText_box_width_of_lines (document : Document) (fuel : nat)
  (text : JSString) (textOptions : TextOptions) (r : Layout) :
  monotone_measure document textOptions ->
  0 < textMaxWidth textOptions ->
  layoutText document fuel text textOptions = Returned r ->
  width (size r)
  = Qmin (inject_Z (max_line_width document textOptions (lines r)))
      (textMaxWidth textOptions).
Proof.
  intros Hm Hpos H. unfold layoutText in H.
  rewrite (positive_width_breaks _ Hpos) in H.
  destruct (String_match text) as [text_groups|]; [|discriminate].
  destruct (fill_loop _ _ _ _) as [st|] eqn:E; [|discriminate].
  inversion H; subst r; clear H. simpl.
  destruct (width_inv_loop document textOptions fuel Hm _ _
              (width_inv_init document textOptions _ Hm) E) as [_ Hw].
  now rewrite Hw.
Qed.

(** The measurement of the examples is monotone. *)
Lemma fixed_width_monotone (w h : Z) (textOptions : TextOptions) :
  (0 <= w)%Z -> monotone_measure (fixed_width_document w h) textOptions.
Proof.
  intros Hw. split; [unfold measured; simpl; lia|]. intros s u.
  unfold measured, tryLayout. cbn [measure fixed_width_document clientWidth].
  apply Z.mul_le_mono_nonneg_l; [exact Hw|].
  apply Nat2Z.inj_le. apply trim_app_length.
Qed.

(** The text hello world in lines of at most 60 px, 10 px a character. *)
Lemma layoutText_box_witness :
  let r := {| size := {| width := 50; height := 126 # 4 |};
              lines := [lit "hello"; lit "world"] |} in
  layoutText (fixed_width_document 10 21) 4 (lit "hello world")
    (options_width 60) = Returned r
  /\ width (size r)
  = Qmin (inject_Z (observed_max_width (fixed_width_document 10 21) 4
                      (lit "hello world") (options_width 60)))
      (textMaxWidth (options_width 60))
  /\ height (size r)
     = length_num (lines r) * textSize (options_width 60)
       + (length_num (lines r) - 1) * (1 # 4) * textSize (options_width 60).
Proof.
  split; [vm_compute; reflexivity|].
  apply (layoutText_box (fixed_width_document 10 21) 4 (lit "hello world")
           (options_width 60)).
  - reflexivity.
  - vm_compute. reflexivity.
Defined.

End TextLayoutFacts.

(** ** The path builder *)

Module PathFacts.
Import Path.

(** Six of the eight primitives make the call of the same name with the
    coordinates and radii scaled and the angles as they are. *)
Lemma primitive_scaled (dpi : Q) (op : Primitive) (this : BrainMapsPath2D) :
  as_specified op = true ->
  getPath (run dpi op this) = getPath this ++ [scaled_call dpi op].
Proof.
  destruct op; simpl; intros H; try discriminate; reflexivity.
Qed.

(** [arcTo] calls [arc] of the underlying path, so that the second
    control point is read as a radius and a start angle and the radius
    as an end angle. *)
Lemma arcTo_calls_arc (dpi x1 y1 x2 y2 radius : Q) (this : BrainMapsPath2D) :
  getPath (arcTo dpi x1 y1 x2 y2 radius this)
  = getPath this
    ++ [Path2D_arc (x1 * dpi) (y1 * dpi) (x2 * dpi) (y2 * dpi) (radius * dpi)
          None].
Proof. reflexivity. Qed.

(** [ellipse] scales its rotation, which is an angle. *)
Lemma ellipse_scales_rotation (dpi x y rx ry rot sa ea : Q)
  (acw : option bool) (this : BrainMapsPath2D) :
  getPath (ellipse dpi x y rx ry rot sa ea acw this)
  = getPath this
    ++ [Path2D_ellipse (x * dpi) (y * dpi) (rx * dpi) (ry * dpi) (rot * dpi)
          sa ea acw].
Proof. reflexivity. Qed.

(** C8: at a device scale factor of 2, [arcTo(10, 20, 30, 40, 5)] makes
    the call [arc(20, 40, 60, 80, 10)] on the underlying path where
    [arcTo(20, 40, 60, 80, 10)] is asked for, and
    [ellipse(0, 0, 10, 5, 1, 0, 3)] passes the rotation 2 where the angle
    1 is asked for. *)
Theorem arcTo_and_ellipse_at_scale_two :
  getPath (run 2 (Op_arcTo 10 20 30 40 5) new_BrainMapsPath2D)
  = [Path2D_arc 20 40 60 80 10 None]
  /\ scaled_call 2 (Op_arcTo 10 20 30 40 5) = Path2D_arcTo 20 40 60 80 10
  /\ getPath (run 2 (Op_ellipse 0 0 10 5 1 0 3 None) new_BrainMapsPath2D)
     = [Path2D_ellipse 0 0 20 10 2 0 3 None]
  /\ scaled_call 2 (Op_ellipse 0 0 10 5 1 0 3 None)
     = Path2D_ellipse 0 0 20 10 1 0 3 None.
Proof. repeat split; reflexivity. Qed.

End PathFacts.

(** ** The shape library *)

Module ShapesFacts.
Import Path Shapes.

Lemma num_lt_iff (a b : Q) : num_lt a b = true <-> a < b.
Proof.
  unfold num_lt. rewrite negb_true_iff. split.
  - intros H. apply Qnot_le_lt. intros Hle.
    apply Qle_bool_iff in Hle. congruence.
  - intros H. destruct (Qle_bool b a) eqn:E; [|reflexivity].
    apply Qle_bool_iff in E. exfalso. exact (Qlt_not_le _ _ H E).
Qed.

Lemma num_le_iff (a b : Q) : num_le a b = true <-> a <= b.
Proof. apply Qle_bool_iff. Qed.

Lemma invalid_input_iff (anchorX anchorY width height borderRadius : Q) :
  invalid_input anchorX anchorY width height borderRadius = true
  <-> anchorX < 0 \/ anchorY < 0 \/ width <= 0 \/ height <= 0
      \/ borderRadius < 0.
Proof.
  unfold invalid_input.
  rewrite !orb_true_iff, !num_lt_iff, !num_le_iff. tauto.
Qed.

(** Past the guard a path is always returned. *)
Lemma roundedRectangle_valid (dpi anchorX anchorY width height borderRadius : Q) :
  invalid_input anchorX anchorY width height borderRadius = false ->
  exists node,
    roundedRectangle dpi anchorX anchorY width height borderRadius
    = Returned node.
Proof.
  intros H. unfold roundedRectangle. rewrite H.
  destruct (num_eq borderRadius 0); eauto.
Qed.

(** C6: [roundedRectangle] fails with [InvalidGeometry] exactly when an
    anchor coordinate is negative, the width or the height is not
    positive, or the border radius is negative.  When it fails it
    returns no path, and otherwise it returns one. *)
Theorem roundedRectangle_fails_iff
  (dpi anchorX anchorY width height borderRadius : Q) :
  let outcome :=
    roundedRectangle dpi anchorX anchorY width height borderRadius in
  let invalid :=
    anchorX < 0 \/ anchorY < 0 \/ width <= 0 \/ height <= 0
    \/ borderRadius < 0 in
  (outcome = Threw InvalidGeometry <-> invalid)
  /\ ((exists node, outcome = Returned node) <-> ~ invalid).
Proof.
  cbv zeta.
  rewrite <- invalid_input_iff.
  destruct (invalid_input anchorX anchorY width height borderRadius) eqn:E.
  - unfold roundedRectangle. rewrite E. split; split; try tauto.
    intros [node H]. discriminate.
  - destruct (roundedRectangle_valid dpi _ _ _ _ _ E) as [node H].
    rewrite H. split; split; try discriminate; eauto.
Qed.

Example roundedRectangle_negative_anchor :
  roundedRectangle 2 (-1) 10 50 20 8 = Threw InvalidGeometry.
Proof. reflexivity. Qed.

Example roundedRectangle_square_corners :
  roundedRectangle 2 100 100 50 20 0
  = Returned {| _path2d := [Path2D_rect (300 # 2) (360 # 2) 100 40] |}.
Proof. reflexivity. Qed.

End ShapesFacts.

(** ** The scene engine *)

Module SceneFacts.
Import Path Scene.

(** *** Strings *)

Lemma str_eqb_eq (a b : JSString) : str_eqb a b = true <-> a = b.
Proof.
  revert b. induction a as [|x a IH]; intros [|y b]; simpl;
    try (split; [discriminate | congruence]); try tauto.
  unfold codeunit_eqb. rewrite andb_true_iff, N.eqb_eq, IH.
  split; [intros [-> ->]; reflexivity | intros H; inversion H; auto].
Qed.

Lemma str_eqb_refl (a : JSString) : str_eqb a a = true.
Proof. now apply str_eqb_eq. Qed.

Lemma str_eqb_neq (a b : JSString) : str_eqb a b = false <-> a <> b.
Proof.
  rewrite <- str_eqb_eq. destruct (str_eqb a b); split; congruence.
Qed.

Lemma startsWith_hash (s : JSString) :
  startsWith s (lit "#") = true <-> exists rest, s = lit "#" ++ rest.
Proof.
  destruct s as [|c s]; simpl.
  - split; [discriminate | intros [rest H]; discriminate].
  - assert (E : forall b, b && startsWith s (lit "") = b)
      by (intros b; destruct s; apply andb_true_r).
    change (codeunit_eqb c 35%N && startsWith s (lit "") = true
            <-> (exists rest, c :: s = 35%N :: rest)).
    rewrite E. unfold codeunit_eqb. rewrite N.eqb_eq. split.
    + intros ->. now exists s.
    + intros [rest H]. now inversion H.
Qed.

(** *** [searchObject] *)

Lemma search_fold_snoc (identifier : JSString) (l : list Drawable)
  (x : Drawable) (target : option Drawable) :
  fold_left (search_step identifier) (l ++ [x]) target
  = search_step identifier (fold_left (search_step identifier) l target) x.
Proof. now rewrite fold_left_app. Qed.

(** The scan returns the last match, and it is the only function of the
    store and the identifier that does. *)
Lemma searchObject_last_match (identifier : JSString) (this : BrainMaps) :
  searchObject identifier this = last_match identifier this.
Proof.
  unfold searchObject, last_match.
  induction (_OBJ_STACK this) as [|x l IH] using rev_ind; [reflexivity|].
  rewrite search_fold_snoc, rev_app_distr. simpl.
  unfold search_step, has_id at 1.
  destruct (str_eqb (id x) identifier); [reflexivity | exact IH].
Qed.

(** C3, as the code has it: [searchObject] scans the whole store and
    returns the last entry, in insertion order, whose [id] is the
    identifier, and [undefined] when there is none. *)
Theorem searchObject_returns_last_match
  (identifier : JSString) (this : BrainMaps) :
  match searchObject identifier this with
  | Some found =>
      exists before later,
        _OBJ_STACK this = before ++ found :: later
        /\ id found = identifier
        /\ Forall (fun obj => id obj <> identifier) later
  | None => Forall (fun obj => id obj <> identifier) (_OBJ_STACK this)
  end.
Proof.
  unfold searchObject.
  induction (_OBJ_STACK this) as [|x l IH] using rev_ind.
  - constructor.
  - rewrite search_fold_snoc. unfold search_step at 1.
    destruct (str_eqb (id x) identifier) eqn:E.
    + exists l, []. apply str_eqb_eq in E. auto.
    + apply str_eqb_neq in E.
      destruct (fold_left (search_step identifier) l None) as [found|].
      * destruct IH as [before [later [-> [Hid Hlater]]]].
        exists before, (later ++ [x]). repeat split.
        -- now rewrite <- app_assoc.
        -- exact Hid.
        -- apply Forall_app. auto.
      * apply Forall_app. auto.
Qed.

(** With two entries of the same [id] the entry found is not the first
    one. *)
Lemma searchObject_not_first_match :
  searchObject (lit "#node") scene_AB <> first_match (lit "#node") scene_AB.
Proof.
  change (searchObject (lit "#node") scene_AB) with (Some node_B).
  change (first_match (lit "#node") scene_AB) with (Some node_A).
  intros H. inversion H.
Qed.

(** *** Hit testing *)

Section Scanning.
Variable ctx : HitTests.
Variables mouseX mouseY : Q.

Local Abbreviation step := (scan_step ctx mouseX mouseY).
Local Abbreviation hit := (hits ctx mouseX mouseY).

(** The arrow function, by cases on the geometric test. *)
Lemma scan_step_cases (s : Scan) (obj : Drawable) :
  step s obj =
  if negb (object_hit s) && hit obj then on_hit s obj else after_tests s obj.
Proof.
  unfold scan_step, hits.
  destruct (object_hit s); simpl; [reflexivity|].
  destruct (fill_mode obj);
    [destruct (isPointInPath _ _ _ _) | destruct (isPointInStroke _ _ _ _)];
    reflexivity.
Qed.

Lemma after_tests_hits (s : Scan) (obj : Drawable) :
  hit_objs (after_tests s obj) = hit_objs s
  /\ object_hit (after_tests s obj) = object_hit s.
Proof. unfold after_tests. destruct (cached_is s obj); auto. Qed.

(** After a hit no object is added to the hit list. *)
Lemma scan_after_hit (l : list Drawable) :
  forall s,
    object_hit s = true ->
    hit_objs (fold_left step l s) = hit_objs s.
Proof.
  induction l as [|obj l IH]; intros s Hs; simpl; [reflexivity|].
  rewrite scan_step_cases, Hs. simpl.
  destruct (after_tests_hits s obj) as [E1 E2].
  rewrite IH by congruence. exact E1.
Qed.

(** Before a hit the hit list receives the first object that passes the
    geometric test, and nothing else. *)
Lemma scan_before_hit (l : list Drawable) :
  forall s,
    object_hit s = false ->
    hit_objs (fold_left step l s) = hit_objs s ++ sole (find hit l).
Proof.
  induction l as [|obj l IH]; intros s Hs; simpl.
  - now rewrite app_nil_r.
  - rewrite scan_step_cases, Hs. simpl.
    destruct (hit obj) eqn:Hobj.
    + now rewrite scan_after_hit.
    + destruct (after_tests_hits s obj) as [E1 E2].
      rewrite IH by congruence. now rewrite E1.
Qed.

Lemma scan_object_hit (l : list Drawable) :
  forall s,
    object_hit (fold_left step l s) = object_hit s || existsb hit l.
Proof.
  induction l as [|obj l IH]; intros s; simpl.
  - now rewrite orb_false_r.
  - rewrite IH, scan_step_cases.
    destruct (object_hit s) eqn:Hs; simpl.
    + now rewrite (proj2 (after_tests_hits s obj)), Hs.
    + destruct (hit obj); simpl; [reflexivity|].
      now rewrite (proj2 (after_tests_hits s obj)), Hs.
Qed.

Lemma scan_hit_objs (last_hist : option Drawable) (stack : list Drawable) :
  hit_objs (scan ctx mouseX mouseY last_hist stack)
  = sole (find hit (rev stack)).
Proof. unfold scan. now rewrite scan_before_hit. Qed.

End Scanning.

(** The callbacks of the event type are called on the hit list, and the
    value returned tells whether the list holds an object. *)
Lemma trigger_events_on_hit_list (ctx : HitTests) (dpi mouseX mouseY : Q)
  (eventType : EventType) (this : BrainMaps) :
  let d := _trigger_events ctx dpi mouseX mouseY eventType this in
  (exists leaves,
     called d
     = flat_map (hit_listener eventType) (hit_test ctx dpi mouseX mouseY this)
       ++ flat_map leave_listener leaves)
  /\ returned d
     = match hit_test ctx dpi mouseX mouseY this with
       | [] => false
       | _ :: _ => true
       end.
Proof.
  cbv zeta. split; [eexists; reflexivity|].
  unfold _trigger_events, hit_test. simpl.
  rewrite scan_hit_objs. unfold scan. rewrite scan_object_hit. simpl.
  destruct (find _ _) as [obj|] eqn:E; simpl.
  - apply find_some in E. apply existsb_exists. eauto.
  - destruct (existsb _ _) eqn:X; [|reflexivity].
    apply existsb_exists in X. destruct X as [obj [Hin Hobj]].
    now rewrite (find_none _ _ E obj Hin) in Hobj.
Qed.

(** C4: the hit list of a pointer event at a position holds the first
    object, from the top of the store down, that passes the geometric
    test (point in path in fill mode, point in stroke otherwise), and
    nothing else.  So when A was added, then B, and both pass the test
    at the position, the hit list is B alone. *)
Theorem hit_test_topmost_wins (ctx : HitTests) (dpi mouseX mouseY : Q) :
  (forall this,
     hit_test ctx dpi mouseX mouseY this
     = sole (find (hits ctx (mouseX * dpi) (mouseY * dpi))
               (rev (_OBJ_STACK this))))
  /\ (forall this A B this_A this_AB,
        addObject (Some A) this = Returned this_A ->
        addObject (Some B) this_A = Returned this_AB ->
        hits ctx (mouseX * dpi) (mouseY * dpi) A = true ->
        hits ctx (mouseX * dpi) (mouseY * dpi) B = true ->
        hit_test ctx dpi mouseX mouseY this_AB = [B]).
Proof.
  assert (H : forall this,
             hit_test ctx dpi mouseX mouseY this
             = sole (find (hits ctx (mouseX * dpi) (mouseY * dpi))
                       (rev (_OBJ_STACK this))))
    by (intros this; apply scan_hit_objs).
  split; [exact H|].
  intros this A B this_A this_AB HA HB _ HhitB.
  inversion HA; subst this_A. inversion HB; subst this_AB.
  rewrite H. simpl. rewrite rev_app_distr. simpl. now rewrite HhitB.
Qed.

(** The point (7, 7) is in both squares of the example, A below B. *)
Lemma hit_test_topmost_wins_witness :
  hit_test rectangles 2 7 7 scene_AB = [node_B].
Proof.
  apply (proj2 (hit_test_topmost_wins rectangles 2 7 7)
           new_BrainMaps node_A node_B (set_stack [node_A] new_BrainMaps)
           scene_AB).
  - reflexivity.
  - reflexivity.
  - reflexivity.
  - reflexivity.
Defined.

(** A stroked object is tested on its stroke: the squares of the example
    without fill mode are hit nowhere by [rectangles]. *)
Example stroke_mode_uses_isPointInStroke :
  hit_test rectangles 2 7 7
    (set_stack [updateObject_fill node_A None; updateObject_fill node_B None]
       new_BrainMaps) = [].
Proof. reflexivity. Qed.

(** *** Hover and leave *)

Section Hovering.
Variable ctx : HitTests.
Variables mouseX mouseY : Q.

Local Abbreviation step := (scan_step ctx mouseX mouseY).
Local Abbreviation hit := (hits ctx mouseX mouseY).

(** Objects that do not pass the test, or come after the hit, and are
    not the cached one leave the scan as it is. *)
Lemma scan_idle (l : list Drawable) (s : Scan) :
  Forall (fun obj => (object_hit s = false -> hit obj = false)
                     /\ cached_is s obj = false) l ->
  fold_left step l s = s.
Proof.
  induction l as [|obj l IH]; intros H; simpl; [reflexivity|].
  inversion H as [|? ? [Hhit Hcache] Hl]; subst.
  rewrite scan_step_cases.
  assert (E : negb (object_hit s) && hit obj = false).
  { destruct (object_hit s); [reflexivity|]. simpl. now apply Hhit. }
  rewrite E. unfold after_tests. rewrite Hcache. now apply IH.
Qed.

Lemma stack_split (stack : list Drawable) (obj : Drawable) :
  distinct_uuids stack ->
  In obj stack ->
  exists below above,
    stack = below ++ obj :: above
    /\ Forall (fun o => str_eqb (uuid obj) (uuid o) = false) (below ++ above).
Proof.
  intros Hnd Hin. destruct (in_split _ _ Hin) as [below [above ->]].
  exists below, above. split; [reflexivity|].
  unfold distinct_uuids in Hnd. rewrite map_app in Hnd. simpl in Hnd.
  apply NoDup_remove_2 in Hnd. rewrite <- map_app in Hnd.
  apply Forall_forall. intros o Ho. apply str_eqb_neq. intros E.
  apply Hnd. rewrite E. now apply in_map.
Qed.

Lemma scan_split (below above : list Drawable) (obj : Drawable) (s : Scan) :
  fold_left step (rev (below ++ obj :: above)) s
  = fold_left step (rev below) (step (fold_left step (rev above) s) obj).
Proof.
  rewrite rev_app_distr. simpl. now rewrite <- app_assoc, !fold_left_app.
Qed.

(** The pointer enters [obj] while nothing is cached. *)
Lemma scan_enter (stack : list Drawable) (obj : Drawable) :
  distinct_uuids stack ->
  In obj stack ->
  inside_only ctx mouseX mouseY stack obj ->
  scan ctx mouseX mouseY None stack
  = {| hit_objs := [obj]; missed_objs := []; object_hit := true;
       cache := Some obj |}.
Proof.
  intros Hnd Hin Honly.
  destruct (stack_split stack obj Hnd Hin) as [below [above [-> Hother]]].
  unfold inside_only in Honly.
  apply Forall_app in Honly. destruct Honly as [Hbelow Habove].
  inversion Habove as [|? ? Hobj Habove']; subst.
  apply Forall_app in Hother. destruct Hother as [Hob Hoa].
  assert (Hsym : forall o, str_eqb (uuid obj) (uuid o) = false ->
                           str_eqb (uuid o) (uuid obj) = false).
  { intros o E. apply str_eqb_neq. apply str_eqb_neq in E. congruence. }
  unfold scan. rewrite scan_split.
  rewrite (scan_idle (rev above)).
  - rewrite scan_step_cases. simpl. rewrite Hobj, str_eqb_refl. simpl.
    unfold on_hit, cached_is_not. simpl.
    rewrite (scan_idle (rev below)); [reflexivity|].
    apply Forall_rev. apply Forall_forall. intros o Ho. simpl.
    split; [discriminate|]. unfold cached_is. simpl.
    rewrite Forall_forall in Hob. now apply Hob.
  - apply Forall_rev. apply Forall_forall. intros o Ho. simpl.
    split; [|reflexivity]. intros _.
    rewrite Forall_forall in Habove', Hoa.
    rewrite (Habove' o Ho). apply Hsym. now apply Hoa.
Qed.

(** The pointer is over no object while [obj] is cached. *)
Lemma scan_leave (stack : list Drawable) (obj : Drawable) :
  distinct_uuids stack ->
  In obj stack ->
  inside_none ctx mouseX mouseY stack ->
  scan ctx mouseX mouseY (Some obj) stack
  = {| hit_objs := []; missed_objs := [obj]; object_hit := false;
       cache := None |}.
Proof.
  intros Hnd Hin Hnone.
  destruct (stack_split stack obj Hnd Hin) as [below [above [-> Hother]]].
  unfold inside_none in Hnone.
  apply Forall_app in Hnone. destruct Hnone as [Hbelow Habove].
  inversion Habove as [|? ? Hobj Habove']; subst.
  apply Forall_app in Hother. destruct Hother as [Hob Hoa].
  unfold scan. rewrite scan_split.
  rewrite (scan_idle (rev above)).
  - rewrite scan_step_cases. simpl. rewrite Hobj. simpl.
    unfold after_tests, cached_is. simpl. rewrite str_eqb_refl.
    rewrite (scan_idle (rev below)); [reflexivity|].
    apply Forall_rev. apply Forall_forall. intros o Ho. simpl.
    split; [|reflexivity]. intros _.
    rewrite Forall_forall in Hbelow. now apply Hbelow.
  - apply Forall_rev. apply Forall_forall. intros o Ho. simpl.
    rewrite Forall_forall in Habove', Hoa.
    split; [intros _; now apply Habove'|].
    unfold cached_is. simpl. now apply Hoa.
Qed.

End Hovering.

(** A move into [obj] with an empty cache calls its hover callback and
    caches it. *)
Lemma hover_enter (ctx : HitTests) (dpi mouseX mouseY : Q) (this : BrainMaps)
  (obj : Drawable) :
  distinct_uuids (_OBJ_STACK this) ->
  In obj (_OBJ_STACK this) ->
  _objcache_last_hist this = None ->
  inside_only ctx (mouseX * dpi) (mouseY * dpi) (_OBJ_STACK this) obj ->
  _trigger_events ctx dpi mouseX mouseY hover this
  = {| returned := true;
       called := call_if_present (onHover obj) obj;
       after := set_cache (Some obj) this |}.
Proof.
  intros Hnd Hin Hcache Honly. unfold _trigger_events.
  rewrite Hcache, (scan_enter _ _ _ _ _ Hnd Hin Honly). simpl.
  now rewrite !app_nil_r.
Qed.

(** A move to a position outside every object calls the leave callback
    of the cached object and empties the cache. *)
Lemma hover_leave (ctx : HitTests) (dpi mouseX mouseY : Q) (this : BrainMaps)
  (obj : Drawable) :
  distinct_uuids (_OBJ_STACK this) ->
  In obj (_OBJ_STACK this) ->
  _objcache_last_hist this = Some obj ->
  inside_none ctx (mouseX * dpi) (mouseY * dpi) (_OBJ_STACK this) ->
  _trigger_events ctx dpi mouseX mouseY hover this
  = {| returned := false;
       called := call_if_present (onMouseLeave obj) obj;
       after := set_cache None this |}.
Proof.
  intros Hnd Hin Hcache Hnone. unfold _trigger_events.
  rewrite Hcache, (scan_leave _ _ _ _ _ Hnd Hin Hnone). simpl.
  now rewrite !app_nil_r.
Qed.

(** C5: in a store without two entries of the same uuid and with an
    empty hover cache, a move to a position inside A only, a move to a
    position inside no object and a move to a position inside B only
    call A.onHover, then A.onMouseLeave, then B.onHover, and nothing
    else; the cache holds A after the first move, nothing after the
    second and B after the third. *)
Theorem hover_leave_hover_sequence
  (ctx : HitTests) (dpi : Q) (this : BrainMaps) (A B : Drawable)
  (x1 y1 x2 y2 x3 y3 : Q) (A_onHover A_onMouseLeave B_onHover : Callback) :
  distinct_uuids (_OBJ_STACK this) ->
  In A (_OBJ_STACK this) ->
  In B (_OBJ_STACK this) ->
  _objcache_last_hist this = None ->
  onHover A = Some A_onHover ->
  onMouseLeave A = Some A_onMouseLeave ->
  onHover B = Some B_onHover ->
  inside_only ctx (x1 * dpi) (y1 * dpi) (_OBJ_STACK this) A ->
  inside_none ctx (x2 * dpi) (y2 * dpi) (_OBJ_STACK this) ->
  inside_only ctx (x3 * dpi) (y3 * dpi) (_OBJ_STACK this) B ->
  let move1 := _trigger_events ctx dpi x1 y1 hover this in
  let move2 := _trigger_events ctx dpi x2 y2 hover (after move1) in
  let move3 := _trigger_events ctx dpi x3 y3 hover (after move2) in
  called move1 ++ called move2 ++ called move3
  = [Invoke A_onHover A; Invoke A_onMouseLeave A; Invoke B_onHover B]
  /\ _objcache_last_hist (after move1) = Some A
  /\ _objcache_last_hist (after move2) = None
  /\ _objcache_last_hist (after move3) = Some B.
Proof.
  intros Hnd HA HB Hcache HhA HlA HhB H1 H2 H3. cbv zeta.
  rewrite (hover_enter ctx dpi x1 y1 this A Hnd HA Hcache H1).
  cbn [after called].
  rewrite (hover_leave ctx dpi x2 y2 (set_cache (Some A) this) A Hnd HA
             eq_refl H2).
  cbn [after called].
  rewrite (hover_enter ctx dpi x3 y3 (set_cache None (set_cache (Some A) this))
             B Hnd HB eq_refl H3).
  cbn [after called]. rewrite HhA, HlA, HhB. simpl. auto.
Qed.

Lemma hover_leave_hover_sequence_witness :
  let move1 := _trigger_events rectangles 2 1 1 hover scene_AB in
  let move2 := _trigger_events rectangles 2 50 50 hover (after move1) in
  let move3 := _trigger_events rectangles 2 12 12 hover (after move2) in
  called move1 ++ called move2 ++ called move3
  = [Invoke 1%nat node_A; Invoke 2%nat node_A; Invoke 3%nat node_B]
  /\ _objcache_last_hist (after move1) = Some node_A
  /\ _objcache_last_hist (after move2) = None
  /\ _objcache_last_hist (after move3) = Some node_B.
Proof.
  apply (hover_leave_hover_sequence rectangles 2 scene_AB node_A node_B
           1 1 50 50 12 12 1%nat 2%nat 3%nat).
  - unfold distinct_uuids. simpl.
    repeat constructor; simpl; intuition discriminate.
  - simpl. auto.
  - simpl. auto.
  - reflexivity.
  - reflexivity.
  - reflexivity.
  - reflexivity.
  - repeat constructor.
  - repeat constructor.
  - repeat constructor.
Defined.

(** The hypothesis on the uuids is needed: with the same object twice in
    the store, one move into it calls its hover callback and its leave
    callback, and caches nothing. *)
Example hover_on_duplicate_entry :
  let move :=
    _trigger_events rectangles 2 1 1 hover
      (set_stack [node_A; node_A] new_BrainMaps) in
  called move = [Invoke 1%nat node_A; Invoke 2%nat node_A]
  /\ _objcache_last_hist (after move) = None.
Proof. split; reflexivity. Qed.

(** *** Drawing *)

Lemma draw_scheduled (this : BrainMaps) (page : Page) :
  _OBJ_STACK this <> [] ->
  draw this page = requestAnimationFrame paint_closure (_fixDPI page).
Proof.
  intros H. unfold draw. destruct (_OBJ_STACK this); [congruence|reflexivity].
Qed.

Lemma no_clearRect_in_drawObject (object : Drawable) :
  filter is_clearRect (_drawObject object) = [].
Proof.
  unfold _drawObject.
  destruct (fillStyle object), (strokeStyle object), (lineWidth object),
    (fill_mode object), (drawText object); reflexivity.
Qed.

(** A paint clears the surface once. *)
Lemma one_clearRect_in_paint (this : BrainMaps) (page : Page) :
  List.length (filter is_clearRect (paint this page)) = 1%nat.
Proof.
  assert (E : filter is_clearRect (flat_map _drawObject (_OBJ_STACK this))
              = []).
  { induction (_OBJ_STACK this) as [|obj l IH]; [reflexivity|].
    cbn [flat_map]. now rewrite filter_app, no_clearRect_in_drawObject. }
  unfold paint. cbn [filter is_clearRect]. now rewrite E.
Qed.

Lemma clearRects_in_paints (this : BrainMaps) (page : Page) (n : nat) :
  List.length (filter is_clearRect (List.concat (repeat (paint this page) n))) = n.
Proof.
  induction n as [|n IH]; [reflexivity|].
  cbn [repeat List.concat]. rewrite filter_app, length_app, IH.
  now rewrite one_clearRect_in_paint.
Qed.

(** [n] calls of [draw] on a store that is not empty: [n] more callbacks
    wait for the frame, and the surface has not been cleared. *)
Lemma draw_times_scheduled (this : BrainMaps) (n : nat) :
  _OBJ_STACK this <> [] ->
  forall page,
    clientWidth (draw_times n this page) = clientWidth page
    /\ clientHeight (draw_times n this page) = clientHeight page
    /\ animation_frame_callbacks (draw_times n this page)
       = animation_frame_callbacks page ++ repeat paint_closure n
    /\ paints (draw_times n this page) = paints page.
Proof.
  intros Hne. induction n as [|n IH]; intros page; simpl.
  - now rewrite app_nil_r.
  - destruct (IH (draw this page)) as [Hw [Hh [Hcb Hp]]].
    rewrite Hw, Hh, Hcb, Hp, (draw_scheduled this page Hne).
    repeat split. simpl.
    + now rewrite <- app_assoc.
    + unfold paints. simpl. rewrite filter_app. simpl. now rewrite app_nil_r.
Qed.

(** The frame runs one paint for each waiting callback. *)
Lemma frame_callbacks_run (this : BrainMaps) (callbacks : list FrameCallback) :
  forall page,
    canvas_calls
      (fold_left (fun pg callback => run_frame_callback this callback pg)
         callbacks page)
    = canvas_calls page
      ++ List.concat (repeat (paint this page) (List.length callbacks))
    /\ animation_frame_callbacks
         (fold_left (fun pg callback => run_frame_callback this callback pg)
            callbacks page)
       = animation_frame_callbacks page.
Proof.
  induction callbacks as [|[] callbacks IH]; intros page; simpl.
  - now rewrite app_nil_r.
  - destruct (IH (canvas_do (paint this page) page)) as [Hc Ha].
    rewrite Hc, Ha. simpl. split; [|reflexivity].
    now rewrite <- app_assoc.
Qed.

(** C2, as the code has it: [n] calls of [draw] before the next frame,
    on a store that is not empty and with no callback waiting, clear
    nothing and paint nothing by themselves; the frame then runs [n]
    paints, one for each call, each clearing the surface and drawing the
    whole store, and leaves no callback waiting. *)
Theorem draws_before_frame_paint_each
  (this : BrainMaps) (page : Page) (n : nat) :
  _OBJ_STACK this <> [] ->
  animation_frame_callbacks page = [] ->
  let requested := draw_times n this page in
  paints requested = paints page
  /\ canvas_calls (next_frame this requested)
     = canvas_calls requested ++ List.concat (repeat (paint this page) n)
  /\ paints (next_frame this requested) = (paints page + n)%nat
  /\ animation_frame_callbacks (next_frame this requested) = [].
Proof.
  intros Hne Hnone. cbv zeta.
  destruct (draw_times_scheduled this n Hne page) as [Hw [Hh [Hcb Hp]]].
  rewrite Hnone in Hcb. simpl in Hcb.
  assert (Hcalls :
            canvas_calls (next_frame this (draw_times n this page))
            = canvas_calls (draw_times n this page)
              ++ List.concat (repeat (paint this page) n)).
  { unfold next_frame. rewrite Hcb.
    match goal with
    | |- canvas_calls (fold_left _ _ ?pg) = _ =>
        destruct (frame_callbacks_run this (repeat paint_closure n) pg)
          as [Hc _]; rewrite Hc
    end.
    rewrite repeat_length. simpl. unfold paint. simpl. now rewrite Hw, Hh. }
  repeat split.
  - exact Hp.
  - exact Hcalls.
  - unfold paints at 1. rewrite Hcalls, filter_app, length_app.
    rewrite clearRects_in_paints. fold (paints (draw_times n this page)).
    now rewrite Hp.
  - unfold next_frame.
    match goal with
    | |- animation_frame_callbacks (fold_left _ ?cbs ?pg) = _ =>
        destruct (frame_callbacks_run this cbs pg) as [_ Ha]; rewrite Ha
    end.
    reflexivity.
Qed.

Lemma draws_before_frame_paint_each_witness :
  let requested := draw_times 5 scene_AB blank_page in
  paints requested = paints blank_page
  /\ canvas_calls (next_frame scene_AB requested)
     = canvas_calls requested ++ List.concat (repeat (paint scene_AB blank_page) 5)
  /\ paints (next_frame scene_AB requested) = (paints blank_page + 5)%nat
  /\ animation_frame_callbacks (next_frame scene_AB requested) = [].
Proof.
  apply (draws_before_frame_paint_each scene_AB blank_page 5).
  - discriminate.
  - reflexivity.
Defined.

(** Five calls of [draw] before the frame do not give one paint. *)
Lemma five_draws_not_one_paint :
  paints (next_frame scene_AB (draw_times 5 scene_AB blank_page)) <> 1%nat.
Proof.
  change (paints (next_frame scene_AB (draw_times 5 scene_AB blank_page)))
    with 5%nat.
  discriminate.
Qed.

(** On an empty store [draw] clears the surface at once and requests no
    frame. *)
Example draw_empty_store :
  draw new_BrainMaps blank_page
  = canvas_do [setAttribute "height" (150 * 2); setAttribute "width" (300 * 2);
               clearRect 0 0 300 150] blank_page.
Proof. reflexivity. Qed.

(** *** The factory *)

(** C10: [createObject] throws for an id that does not start with the
    number sign.  For an id that starts with it, it returns a drawable
    with that id, the path built so far and the uuid that this call of
    the generator produced; when the generator never repeats itself,
    that uuid differs from every uuid generated before. *)
Theorem createObject_checks_id
  (v4 : nat -> JSString) (calls : nat) (id : JSString)
  (path : BrainMapsPath2D) (options : RenderOptions)
  (isFillObject : option bool) :
  (~ (exists rest, id = lit "#" ++ rest) ->
   createObject v4 calls id path options isFillObject
   = Threw (Error "id must start with # and be a valid identifier"))
  /\ ((exists rest, id = lit "#" ++ rest) ->
      exists object,
        createObject v4 calls id path options isFillObject
        = Returned (object, S calls)
        /\ Scene.id object = id
        /\ Scene.path object = getPath path
        /\ uuid object = v4 calls
        /\ ((forall i j, v4 i = v4 j -> i = j) ->
            forall earlier, (earlier < calls)%nat ->
                            v4 earlier <> uuid object)).
Proof.
  unfold createObject. rewrite <- startsWith_hash.
  destruct (startsWith id (lit "#")); simpl; split.
  - intros H. exfalso. now apply H.
  - intros _. eexists. split; [reflexivity|]. simpl. repeat split.
    intros Hinj earlier Hlt E. apply Hinj in E. lia.
  - reflexivity.
  - discriminate.
Qed.

Lemma createObject_checks_id_witness :
  exists object,
    createObject numbering_v4 3 (lit "#textnode")
      (rect 2 0 0 10 10 new_BrainMapsPath2D)
      {| opt_fillStyle := None; opt_strokeStyle := None;
         opt_lineWidth := None |} None
    = Returned (object, 4%nat)
    /\ Scene.id object = lit "#textnode"
    /\ Scene.path object = [Path2D_rect (0 * 2) (0 * 2) (10 * 2) (10 * 2)]
    /\ uuid object = numbering_v4 3
    /\ forall earlier, (earlier < 3)%nat ->
                       numbering_v4 earlier <> uuid object.
Proof.
  destruct (proj2 (createObject_checks_id numbering_v4 3 (lit "#textnode")
                     (rect 2 0 0 10 10 new_BrainMapsPath2D)
                     {| opt_fillStyle := None; opt_strokeStyle := None;
                        opt_lineWidth := None |} None))
    as [object [H1 [H2 [H3 [H4 H5]]]]].
  - exists (lit "textnode"). reflexivity.
  - exists object. repeat split; try assumption.
    apply H5. intros i j E. unfold numbering_v4 in E.
    apply app_inv_head in E. inversion E. now apply Nnat.Nat2N.inj.
Defined.

Example createObject_rejects_plain_id :
  createObject numbering_v4 0 (lit "textnode") new_BrainMapsPath2D
    {| opt_fillStyle := None; opt_strokeStyle := None; opt_lineWidth := None |}
    None
  = Threw (Error "id must start with # and be a valid identifier").
Proof. reflexivity. Qed.

End SceneFacts.

(** ** The store: adding, finding, updating and removing *)

Module StoreFacts.
Import Path Scene Notions SceneFacts.

(** Dropping entries keeps the uuids of a store distinct. *)
Lemma distinct_uuids_filter (keep : Drawable -> bool) (stack : list Drawable) :
  distinct_uuids stack -> distinct_uuids (filter keep stack).
Proof.
  unfold distinct_uuids. induction stack as [|obj stack IH]; intros Hnd.
  - constructor.
  - cbn [map] in Hnd. apply NoDup_cons_iff in Hnd.
    destruct Hnd as [Hfresh Hrest]. cbn [filter].
    destruct (keep obj); [|now apply IH].
    cbn [map]. apply NoDup_cons; [|now apply IH].
    intros Hin. apply Hfresh. apply in_map_iff in Hin.
    destruct Hin as [other [Hsame Hkept]].
    apply in_map_iff. exists other. split; [exact Hsame|].
    now apply filter_In in Hkept.
Qed.

(** An object just added is the one [searchObject] finds under its id,
    whatever the store held before. *)
Theorem addObject_then_searchObject (obj : Drawable) (this : BrainMaps) :
  exists this',
    addObject (Some obj) this = Returned this'
    /\ _OBJ_STACK this' = _OBJ_STACK this ++ [obj]
    /\ searchObject (id obj) this' = Some obj.
Proof.
  eexists. split; [reflexivity|]. split; [reflexivity|].
  unfold searchObject. cbn [_OBJ_STACK set_stack].
  rewrite search_fold_snoc. unfold search_step.
  now rewrite str_eqb_refl.
Qed.

(** After [removeObject] with a string that starts with the number sign,
    no entry has that id any more, every other entry is still there, and
    [searchObject] finds nothing under it. *)
Theorem removeObject_by_id (s : JSString) (this : BrainMaps) :
  startsWith s (lit "#") = true ->
  searchObject s (removeObject (by_string s) this) = None
  /\ forall obj,
       In obj (_OBJ_STACK (removeObject (by_string s) this))
       <-> In obj (_OBJ_STACK this) /\ id obj <> s.
Proof.
  intros Hs. unfold removeObject. rewrite Hs. cbn [_OBJ_STACK set_stack].
  split.
  - rewrite searchObject_last_match. unfold last_match.
    cbn [_OBJ_STACK set_stack].
    destruct (find _ _) as [x|] eqn:E; [|reflexivity].
    apply find_some in E. destruct E as [Hin Hid].
    apply in_rev, filter_In in Hin. destruct Hin as [_ Hneg].
    unfold has_id in Hid. rewrite Hid in Hneg. discriminate.
  - intros obj. rewrite filter_In, negb_true_iff, str_eqb_neq. tauto.
Qed.

Lemma removeObject_by_id_witness :
  searchObject (lit "#node") (removeObject (by_string (lit "#node")) scene_ABC)
  = None
  /\ forall obj,
       In obj (_OBJ_STACK (removeObject (by_string (lit "#node")) scene_ABC))
       <-> In obj (_OBJ_STACK scene_ABC) /\ id obj <> lit "#node".
Proof.
  apply (removeObject_by_id (lit "#node") scene_ABC). reflexivity.
Defined.

(** When the id starts with the number sign, the uuid does not, and the
    entries with the id of an object are the entries with its uuid,
    removing by id string, by uuid string and by object give the same
    instance. *)
Theorem removeObject_three_ways (obj : Drawable) (this : BrainMaps) :
  startsWith (id obj) (lit "#") = true ->
  startsWith (uuid obj) (lit "#") = false ->
  same_entries (_OBJ_STACK this) obj ->
  removeObject (by_string (id obj)) this = removeObject (by_object obj) this
  /\ removeObject (by_string (uuid obj)) this
     = removeObject (by_object obj) this.
Proof.
  intros Hid Huuid Hsame. unfold removeObject. rewrite Hid, Huuid.
  split; [|reflexivity]. f_equal.
  apply filter_ext_in. intros x Hx. unfold same_entries in Hsame.
  rewrite Forall_forall in Hsame. now rewrite (Hsame x Hx).
Qed.

Lemma removeObject_three_ways_witness :
  removeObject (by_string (id node_C)) scene_ABC
  = removeObject (by_object node_C) scene_ABC
  /\ removeObject (by_string (uuid node_C)) scene_ABC
     = removeObject (by_object node_C) scene_ABC.
Proof.
  apply (removeObject_three_ways node_C scene_ABC).
  - reflexivity.
  - reflexivity.
  - repeat constructor.
Defined.

(** A uuid that starts with the number sign is taken for an id: the
    object is then not removed by its uuid string. *)
Example removeObject_uuid_taken_for_id :
  let odd := node (lit "#0d0d") (lit "#odd") 0 0 1 1 7%nat 8%nat in
  let this := set_stack [odd] new_BrainMaps in
  _OBJ_STACK (removeObject (by_string (uuid odd)) this) = [odd]
  /\ _OBJ_STACK (removeObject (by_object odd) this) = [].
Proof. split; reflexivity. Qed.

(** [removeObject] with an object keeps the entries of another uuid, in
    their order, keeps the uuids distinct when they were, and leaves the
    hover cache as it is, also when the cached object is the one
    removed. *)
Theorem removeObject_keeps_the_rest (obj : Drawable) (this : BrainMaps) :
  let this' := removeObject (by_object obj) this in
  (forall x, In x (_OBJ_STACK this')
             <-> In x (_OBJ_STACK this) /\ uuid x <> uuid obj)
  /\ (List.length (_OBJ_STACK this') <= List.length (_OBJ_STACK this))%nat
  /\ (distinct_uuids (_OBJ_STACK this) -> distinct_uuids (_OBJ_STACK this'))
  /\ _objcache_last_hist this' = _objcache_last_hist this.
Proof.
  cbv zeta. unfold removeObject.
  cbn [_OBJ_STACK set_stack _objcache_last_hist].
  split; [|split; [|split]].
  - intros x. rewrite filter_In, negb_true_iff, str_eqb_neq. tauto.
  - apply filter_length_le.
  - apply distinct_uuids_filter.
  - reflexivity.
Qed.

(** *** [updateObject] *)

Lemma update_map_uuid (object : Drawable) (stack : list Drawable) :
  map uuid
    (map (fun obj => if str_eqb (uuid obj) (uuid object) then object else obj)
       stack)
  = map uuid stack.
Proof.
  induction stack as [|x stack IH]; simpl; [reflexivity|].
  rewrite IH. destruct (str_eqb (uuid x) (uuid object)) eqn:E;
    [|reflexivity].
  apply str_eqb_eq in E. now rewrite E.
Qed.

(** [updateObject] never changes the uuids of the store, nor their
    order, nor the hover cache: the store keeps its length, and its
    uuids stay distinct when they were. *)
Theorem updateObject_keeps_uuids (object : Drawable) (this : BrainMaps) :
  map uuid (_OBJ_STACK (updateObject object this))
  = map uuid (_OBJ_STACK this)
  /\ _objcache_last_hist (updateObject object this)
     = _objcache_last_hist this.
Proof.
  unfold updateObject. cbn [_OBJ_STACK set_stack _objcache_last_hist].
  split; [apply update_map_uuid | reflexivity].
Qed.

(** [updateObject] with an object whose uuid is not in the store throws
    nothing and leaves the store as it is. *)
Theorem updateObject_unknown_uuid (object : Drawable) (this : BrainMaps) :
  ~ In (uuid object) (map uuid (_OBJ_STACK this)) ->
  _OBJ_STACK (updateObject object this) = _OBJ_STACK this.
Proof.
  intros H. unfold updateObject. cbn [_OBJ_STACK set_stack].
  induction (_OBJ_STACK this) as [|x stack IH]; simpl; [reflexivity|].
  simpl in H. destruct (str_eqb (uuid x) (uuid object)) eqn:E.
  - apply str_eqb_eq in E. exfalso. apply H. now left.
  - f_equal. apply IH. intros Hin. apply H. now right.
Qed.

Lemma updateObject_unknown_uuid_witness :
  _OBJ_STACK (updateObject node_C scene_AB) = _OBJ_STACK scene_AB.
Proof.
  apply (updateObject_unknown_uuid node_C scene_AB).
  simpl. intuition discriminate.
Defined.

(** In a store of distinct uuids [updateObject] replaces the one entry
    with the uuid of the object, where it stands. *)
Theorem updateObject_replaces_in_place
  (object old : Drawable) (this : BrainMaps) (below above : list Drawable) :
  distinct_uuids (_OBJ_STACK this) ->
  _OBJ_STACK this = below ++ old :: above ->
  uuid old = uuid object ->
  _OBJ_STACK (updateObject object this) = below ++ object :: above.
Proof.
  intros Hnd Hstack Huuid. unfold updateObject. cbn [_OBJ_STACK set_stack].
  rewrite Hstack in *. clear Hstack.
  unfold distinct_uuids in Hnd. rewrite map_app in Hnd. simpl in Hnd.
  apply NoDup_remove_2 in Hnd. rewrite Huuid in Hnd.
  assert (Hkeep : forall l,
             ~ In (uuid object) (map uuid l) ->
             map (fun obj => if str_eqb (uuid obj) (uuid object)
                             then object else obj) l = l).
  { induction l as [|x l IH]; simpl; intros H; [reflexivity|].
    destruct (str_eqb (uuid x) (uuid object)) eqn:E.
    - apply str_eqb_eq in E. exfalso. apply H. now left.
    - f_equal. apply IH. intros Hin. apply H. now right. }
  rewrite map_app. simpl. rewrite Huuid, str_eqb_refl.
  rewrite !Hkeep; [reflexivity| |];
    intros Hin; apply Hnd; apply in_or_app; auto.
Qed.

Lemma updateObject_replaces_in_place_witness :
  let thicker := updateObject_fill node_A None in
  _OBJ_STACK (updateObject thicker scene_AB) = [] ++ thicker :: [node_B].
Proof.
  apply (updateObject_replaces_in_place (updateObject_fill node_A None)
           node_A scene_AB [] [node_B]).
  - unfold distinct_uuids. simpl.
    repeat constructor; simpl; intuition discriminate.
  - reflexivity.
  - reflexivity.
Defined.

(** *** Objects of the factory in the store *)

(** When the generator never repeats itself and every uuid of the store
    came out of it, adding an object just made by [createObject] keeps
    the uuids of the store distinct, and every uuid of the new store
    came out of the generator. *)
Theorem created_object_keeps_uuids_distinct
  (v4 : nat -> JSString) (calls calls' : nat) (id : JSString)
  (path : BrainMapsPath2D) (options : RenderOptions)
  (isFillObject : option bool) (obj : Drawable) (this this' : BrainMaps) :
  (forall i j, v4 i = v4 j -> i = j) ->
  distinct_uuids (_OBJ_STACK this) ->
  issued v4 calls (_OBJ_STACK this) ->
  createObject v4 calls id path options isFillObject
  = Returned (obj, calls') ->
  addObject (Some obj) this = Returned this' ->
  distinct_uuids (_OBJ_STACK this') /\ issued v4 calls' (_OBJ_STACK this').
Proof.
  intros Hinj Hnd Hissued Hcreate Hadd.
  unfold createObject in Hcreate.
  destruct (negb (startsWith id (lit "#"))); [discriminate|].
  inversion Hcreate; subst obj calls'; clear Hcreate.
  inversion Hadd; subst this'; clear Hadd.
  cbn [_OBJ_STACK set_stack]. unfold issued in *. split.
  - unfold distinct_uuids in *. rewrite map_app. cbn [map uuid].
    apply NoDup_app; [exact Hnd | repeat constructor; intros [] |].
    intros a Hin [Ha|[]]. subst a. apply in_map_iff in Hin.
    destruct Hin as [x [Hx Hin]].
    rewrite Forall_forall in Hissued.
    destruct (Hissued x Hin) as [k [Hk Hv]].
    rewrite Hv in Hx. apply Hinj in Hx. lia.
  - apply Forall_app. split.
    + eapply Forall_impl; [|exact Hissued].
      intros x [k [Hk Hv]]. exists k. split; [lia | exact Hv].
    + constructor; [|constructor]. exists calls. split; [lia | reflexivity].
Qed.

Lemma numbering_v4_injective (i j : nat) :
  numbering_v4 i = numbering_v4 j -> i = j.
Proof.
  unfold numbering_v4. intros E. apply app_inv_head in E.
  inversion E. now apply Nnat.Nat2N.inj.
Qed.

Lemma created_object_keeps_uuids_distinct_witness :
  let first := node (numbering_v4 0) (lit "#first") 0 0 1 1 1%nat 2%nat in
  let this := set_stack [first] new_BrainMaps in
  exists obj this',
    createObject numbering_v4 1 (lit "#second") new_BrainMapsPath2D
      {| opt_fillStyle := None; opt_strokeStyle := None;
         opt_lineWidth := None |} None
    = Returned (obj, 2%nat)
    /\ addObject (Some obj) this = Returned this'
    /\ distinct_uuids (_OBJ_STACK this')
    /\ issued numbering_v4 2 (_OBJ_STACK this').
Proof.
  cbv zeta. eexists. eexists.
  split; [reflexivity|]. split; [reflexivity|].
  eapply (created_object_keeps_uuids_distinct numbering_v4 1 2
            (lit "#second") new_BrainMapsPath2D
            {| opt_fillStyle := None; opt_strokeStyle := None;
               opt_lineWidth := None |} None _
            (set_stack [node (numbering_v4 0) (lit "#first") 0 0 1 1
                          1%nat 2%nat] new_BrainMaps) _).
  - exact numbering_v4_injective.
  - unfold distinct_uuids. simpl. repeat constructor. intros [].
  - repeat constructor. exists 0%nat. split; [lia | reflexivity].
  - reflexivity.
  - reflexivity.
Defined.

End StoreFacts.

(** ** Pointer events beyond entering and leaving *)

Module DispatchFacts.
Import Path Scene Listeners Notions SceneFacts StoreFacts.

Section Passing.
Variable ctx : HitTests.
Variables mouseX mouseY : Q.

Local Abbreviation step := (scan_step ctx mouseX mouseY).
Local Abbreviation hit := (hits ctx mouseX mouseY).

Lemma str_eqb_sym (a b : JSString) : str_eqb a b = str_eqb b a.
Proof.
  destruct (str_eqb a b) eqn:E.
  - apply str_eqb_eq in E. subst. symmetry. apply str_eqb_refl.
  - symmetry. apply str_eqb_neq. apply str_eqb_neq in E. congruence.
Qed.

Lemma distinct_above (below above : list Drawable) (obj : Drawable) :
  distinct_uuids (below ++ obj :: above) ->
  Forall (fun o => str_eqb (uuid obj) (uuid o) = false) (below ++ above).
Proof.
  intros Hnd. unfold distinct_uuids in Hnd. rewrite map_app in Hnd.
  simpl in Hnd. apply NoDup_remove_2 in Hnd. rewrite <- map_app in Hnd.
  apply Forall_forall. intros o Ho. apply str_eqb_neq. intros E.
  apply Hnd. rewrite E. now apply in_map.
Qed.

(** The scan reaches an object that it hits while another object is
    cached, the cached object not being among the objects above. *)
Lemma scan_hit_late (below above : list Drawable) (obj cached : Drawable) :
  distinct_uuids (below ++ obj :: above) ->
  inside_only ctx mouseX mouseY (below ++ obj :: above) obj ->
  str_eqb (uuid cached) (uuid obj) = false ->
  Forall (fun o => str_eqb (uuid cached) (uuid o) = false) above ->
  scan ctx mouseX mouseY (Some cached) (below ++ obj :: above)
  = {| hit_objs := [obj]; missed_objs := [cached]; object_hit := true;
       cache := Some obj |}.
Proof.
  intros Hnd Honly Hdiff Habove_c.
  pose proof (distinct_above below above obj Hnd) as Hother.
  apply Forall_app in Hother. destruct Hother as [Hob Hoa].
  unfold inside_only in Honly.
  apply Forall_app in Honly. destruct Honly as [Hbelow Habove].
  inversion Habove as [|? ? Hobj Habove']; subst.
  unfold scan. rewrite scan_split.
  rewrite (scan_idle ctx mouseX mouseY (rev above)).
  - rewrite scan_step_cases. simpl. rewrite Hobj, str_eqb_refl. simpl.
    unfold on_hit, cached_is_not. simpl. rewrite Hdiff. simpl.
    rewrite (scan_idle ctx mouseX mouseY (rev below)); [reflexivity|].
    apply Forall_rev. apply Forall_forall. intros o Ho. simpl.
    split; [discriminate|]. unfold cached_is. simpl.
    rewrite Forall_forall in Hob. now apply Hob.
  - apply Forall_rev. apply Forall_forall. intros o Ho. simpl.
    rewrite Forall_forall in Habove', Hoa, Habove_c. split.
    + intros _. rewrite (Habove' o Ho), str_eqb_sym. now apply Hoa.
    + unfold cached_is. simpl. now apply Habove_c.
Qed.

(** The scan passes the cached object, above the object that it hits. *)
Lemma scan_hit_early (below above1 above2 : list Drawable)
  (obj cached : Drawable) :
  distinct_uuids (below ++ obj :: above1 ++ cached :: above2) ->
  inside_only ctx mouseX mouseY (below ++ obj :: above1 ++ cached :: above2)
    obj ->
  scan ctx mouseX mouseY (Some cached)
    (below ++ obj :: above1 ++ cached :: above2)
  = {| hit_objs := [obj]; missed_objs := [cached]; object_hit := true;
       cache := Some obj |}.
Proof.
  intros Hnd Honly.
  pose proof (distinct_above below (above1 ++ cached :: above2) obj Hnd)
    as Hother.
  apply Forall_app in Hother. destruct Hother as [Hob Hoa].
  apply Forall_app in Hoa. destruct Hoa as [Hoa1 Hoa2].
  inversion Hoa2 as [|? ? Hoc Hoa2']; subst.
  assert (Hnd' : distinct_uuids ((below ++ obj :: above1) ++ cached :: above2))
    by now rewrite <- app_assoc.
  pose proof (distinct_above _ _ _ Hnd') as Hc.
  apply Forall_app in Hc. destruct Hc as [Hc1 Hc2].
  apply Forall_app in Hc1. destruct Hc1 as [_ Hc1].
  inversion Hc1 as [|? ? _ Hca1]; subst.
  unfold inside_only in Honly.
  apply Forall_app in Honly. destruct Honly as [Hbelow Habove].
  inversion Habove as [|? ? Hobj Habove']; subst.
  apply Forall_app in Habove'. destruct Habove' as [Hh1 Hh2].
  inversion Hh2 as [|? ? Hhc Hh2']; subst.
  assert (Hmiss : forall l,
             Forall (fun o => hit o = str_eqb (uuid o) (uuid obj)) l ->
             Forall (fun o => str_eqb (uuid obj) (uuid o) = false) l ->
             Forall (fun o => hit o = false) l).
  { intros l H1 H2. rewrite Forall_forall in *. intros o Ho.
    rewrite (H1 o Ho), str_eqb_sym. now apply H2. }
  unfold scan. rewrite scan_split, scan_split.
  rewrite (scan_idle ctx mouseX mouseY (rev above2)).
  - rewrite (scan_step_cases ctx mouseX mouseY _ cached). simpl.
    rewrite Hhc, (str_eqb_sym (uuid cached)), Hoc. simpl.
    unfold after_tests at 1, cached_is at 1. simpl. rewrite str_eqb_refl.
    rewrite (scan_idle ctx mouseX mouseY (rev above1)).
    + rewrite scan_step_cases. simpl. rewrite Hobj, str_eqb_refl. simpl.
      unfold on_hit, cached_is_not. simpl.
      rewrite (scan_idle ctx mouseX mouseY (rev below)); [reflexivity|].
      apply Forall_rev. apply Forall_forall. intros o Ho. simpl.
      split; [discriminate|]. unfold cached_is. simpl.
      rewrite Forall_forall in Hob. now apply Hob.
    + apply Forall_rev. apply Forall_forall. intros o Ho. simpl.
      split; [|reflexivity]. intros _.
      pose proof (Hmiss above1 Hh1 Hoa1) as Hm.
      rewrite Forall_forall in Hm. now apply Hm.
  - apply Forall_rev. apply Forall_forall. intros o Ho. simpl. split.
    + intros _. pose proof (Hmiss above2 Hh2' Hoa2') as Hm.
      rewrite Forall_forall in Hm. now apply Hm.
    + unfold cached_is. simpl. rewrite Forall_forall in Hc2.
      now apply Hc2.
Qed.

(** The pointer moves inside the cached object. *)
Lemma scan_stay (stack : list Drawable) (obj : Drawable) :
  distinct_uuids stack ->
  In obj stack ->
  inside_only ctx mouseX mouseY stack obj ->
  scan ctx mouseX mouseY (Some obj) stack
  = {| hit_objs := [obj]; missed_objs := []; object_hit := true;
       cache := Some obj |}.
Proof.
  intros Hnd Hin Honly.
  destruct (in_split _ _ Hin) as [below [above ->]].
  pose proof (distinct_above below above obj Hnd) as Hother.
  apply Forall_app in Hother. destruct Hother as [Hob Hoa].
  unfold inside_only in Honly.
  apply Forall_app in Honly. destruct Honly as [Hbelow Habove].
  inversion Habove as [|? ? Hobj Habove']; subst.
  unfold scan. rewrite scan_split.
  rewrite (scan_idle ctx mouseX mouseY (rev above)).
  - rewrite scan_step_cases. simpl. rewrite Hobj, str_eqb_refl. simpl.
    unfold on_hit, cached_is_not. simpl. rewrite str_eqb_refl. simpl.
    rewrite (scan_idle ctx mouseX mouseY (rev below)); [reflexivity|].
    apply Forall_rev. apply Forall_forall. intros o Ho. simpl.
    split; [discriminate|]. unfold cached_is. simpl.
    rewrite Forall_forall in Hob. now apply Hob.
  - apply Forall_rev. apply Forall_forall. intros o Ho. simpl.
    rewrite Forall_forall in Habove', Hoa. split.
    + intros _. rewrite (Habove' o Ho), str_eqb_sym. now apply Hoa.
    + unfold cached_is. simpl. now apply Hoa.
Qed.

(** The pointer goes from the cached object straight into another. *)
Lemma scan_switch (stack : list Drawable) (from to : Drawable) :
  distinct_uuids stack ->
  In from stack ->
  In to stack ->
  uuid from <> uuid to ->
  inside_only ctx mouseX mouseY stack to ->
  scan ctx mouseX mouseY (Some from) stack
  = {| hit_objs := [to]; missed_objs := [from]; object_hit := true;
       cache := Some to |}.
Proof.
  intros Hnd Hfrom Hto Hdiff Honly.
  destruct (in_split _ _ Hto) as [below [above ->]].
  apply in_app_or in Hfrom. destruct Hfrom as [Hfrom|[Hfrom|Hfrom]].
  - destruct (in_split _ _ Hfrom) as [b1 [b2 ->]].
    apply scan_hit_late; try assumption.
    + now apply str_eqb_neq.
    + rewrite <- app_assoc in Hnd. simpl in Hnd.
      pose proof (distinct_above b1 (b2 ++ to :: above) from Hnd) as H.
      apply Forall_app in H. destruct H as [_ H].
      apply Forall_app in H. destruct H as [_ H].
      now inversion H.
  - subst. congruence.
  - destruct (in_split _ _ Hfrom) as [a1 [a2 ->]].
    now apply scan_hit_early.
Qed.

End Passing.

(** A move inside the object that is already cached calls its hover
    callback again, calls no leave callback and keeps it cached: the
    hover callback runs on every move over an object, not only on the
    first. *)
Theorem hover_again_on_same_object
  (ctx : HitTests) (dpi mouseX mouseY : Q) (this : BrainMaps)
  (obj : Drawable) :
  distinct_uuids (_OBJ_STACK this) ->
  In obj (_OBJ_STACK this) ->
  _objcache_last_hist this = Some obj ->
  inside_only ctx (mouseX * dpi) (mouseY * dpi) (_OBJ_STACK this) obj ->
  _trigger_events ctx dpi mouseX mouseY hover this
  = {| returned := true;
       called := call_if_present (onHover obj) obj;
       after := set_cache (Some obj) this |}.
Proof.
  intros Hnd Hin Hcache Honly. unfold _trigger_events.
  rewrite Hcache, (scan_stay _ _ _ _ _ Hnd Hin Honly). simpl.
  now rewrite !app_nil_r.
Qed.

Lemma hover_again_on_same_object_witness :
  _trigger_events rectangles 2 1 1 hover (set_cache (Some node_A) scene_AB)
  = {| returned := true;
       called := call_if_present (onHover node_A) node_A;
       after := set_cache (Some node_A) (set_cache (Some node_A) scene_AB) |}.
Proof.
  apply (hover_again_on_same_object rectangles 2 1 1
           (set_cache (Some node_A) scene_AB) node_A).
  - unfold distinct_uuids. simpl.
    repeat constructor; simpl; intuition discriminate.
  - simpl. auto.
  - reflexivity.
  - repeat constructor.
Defined.

(** A move from the cached object straight into another object of the
    store calls the hover callback of the new object first and the leave
    callback of the old one after it, whichever of the two is on top,
    and caches the new object. *)
Theorem hover_from_one_object_to_another
  (ctx : HitTests) (dpi mouseX mouseY : Q) (this : BrainMaps)
  (from to : Drawable) :
  distinct_uuids (_OBJ_STACK this) ->
  In from (_OBJ_STACK this) ->
  In to (_OBJ_STACK this) ->
  uuid from <> uuid to ->
  _objcache_last_hist this = Some from ->
  inside_only ctx (mouseX * dpi) (mouseY * dpi) (_OBJ_STACK this) to ->
  _trigger_events ctx dpi mouseX mouseY hover this
  = {| returned := true;
       called := call_if_present (onHover to) to
                 ++ call_if_present (onMouseLeave from) from;
       after := set_cache (Some to) this |}.
Proof.
  intros Hnd Hfrom Hto Hdiff Hcache Honly. unfold _trigger_events.
  rewrite Hcache, (scan_switch _ _ _ _ _ _ Hnd Hfrom Hto Hdiff Honly).
  simpl. now rewrite !app_nil_r.
Qed.

Lemma hover_from_one_object_to_another_witness :
  _trigger_events rectangles 2 12 12 hover (set_cache (Some node_A) scene_AB)
  = {| returned := true;
       called := [Invoke 3%nat node_B; Invoke 2%nat node_A];
       after := set_cache (Some node_B) (set_cache (Some node_A) scene_AB) |}
  /\ _trigger_events rectangles 2 1 1 hover
       (set_cache (Some node_B) scene_AB)
     = {| returned := true;
          called := [Invoke 1%nat node_A; Invoke 4%nat node_B];
          after := set_cache (Some node_A)
                     (set_cache (Some node_B) scene_AB) |}.
Proof.
  split.
  - apply (hover_from_one_object_to_another rectangles 2 12 12
             (set_cache (Some node_A) scene_AB) node_A node_B).
    + unfold distinct_uuids. simpl.
      repeat constructor; simpl; intuition discriminate.
    + simpl. auto.
    + simpl. auto.
    + discriminate.
    + reflexivity.
    + repeat constructor.
  - apply (hover_from_one_object_to_another rectangles 2 1 1
             (set_cache (Some node_B) scene_AB) node_B node_A).
    + unfold distinct_uuids. simpl.
      repeat constructor; simpl; intuition discriminate.
    + simpl. auto.
    + simpl. auto.
    + discriminate.
    + reflexivity.
    + repeat constructor.
Defined.

(** [removeObject] leaves the uuid of the removed object nowhere in the
    store. *)
Lemma removed_uuid_absent (obj : Drawable) (this : BrainMaps) :
  Forall (fun o => str_eqb (uuid obj) (uuid o) = false)
    (_OBJ_STACK (removeObject (by_object obj) this)).
Proof.
  unfold removeObject. cbn [_OBJ_STACK set_stack].
  apply Forall_forall. intros o Ho. apply filter_In in Ho.
  destruct Ho as [_ Ho]. rewrite negb_true_iff in Ho.
  now rewrite str_eqb_sym.
Qed.

(** The hovered object is removed from the store.  A move to a position
    inside no object then calls nothing, not even its leave callback,
    and leaves it cached; its leave callback is called by the move that
    next enters an object of the store, after the hover callback of that
    object. *)
Theorem hover_after_removal
  (ctx : HitTests) (dpi : Q) (this : BrainMaps) (gone next : Drawable)
  (x1 y1 x2 y2 : Q) :
  distinct_uuids (_OBJ_STACK this) ->
  _objcache_last_hist this = Some gone ->
  let this' := removeObject (by_object gone) this in
  In next (_OBJ_STACK this') ->
  inside_none ctx (x1 * dpi) (y1 * dpi) (_OBJ_STACK this') ->
  inside_only ctx (x2 * dpi) (y2 * dpi) (_OBJ_STACK this') next ->
  let move1 := _trigger_events ctx dpi x1 y1 hover this' in
  let move2 := _trigger_events ctx dpi x2 y2 hover (after move1) in
  move1 = {| returned := false; called := [];
             after := set_cache (Some gone) this' |}
  /\ called move2
     = call_if_present (onHover next) next
       ++ call_if_present (onMouseLeave gone) gone
  /\ _objcache_last_hist (after move2) = Some next.
Proof.
  intros Hnd Hcache this' Hnext Hnone Honly.
  pose proof (removed_uuid_absent gone this) as Habsent.
  fold this' in Habsent.
  assert (Hnd' : distinct_uuids (_OBJ_STACK this')).
  { unfold this', removeObject. cbn [_OBJ_STACK set_stack].
    now apply distinct_uuids_filter. }
  assert (Hcache' : _objcache_last_hist this' = Some gone)
    by exact Hcache.
  assert (H1 : _trigger_events ctx dpi x1 y1 hover this'
               = {| returned := false; called := [];
                    after := set_cache (Some gone) this' |}).
  { unfold _trigger_events. rewrite Hcache'. unfold scan.
    rewrite (scan_idle ctx _ _ (rev (_OBJ_STACK this'))); [reflexivity|].
    apply Forall_rev. apply Forall_forall. intros o Ho. simpl.
    unfold inside_none in Hnone. rewrite Forall_forall in Hnone, Habsent.
    split; [intros _; now apply Hnone|].
    unfold cached_is. simpl. now apply Habsent. }
  cbv zeta. rewrite H1. cbn [after]. split; [reflexivity|].
  destruct (in_split _ _ Hnext) as [below [above E]].
  unfold _trigger_events.
  cbn [_OBJ_STACK _objcache_last_hist set_cache].
  rewrite E in *.
  rewrite (scan_hit_late ctx _ _ below above next gone Hnd' Honly).
  - simpl. now rewrite !app_nil_r.
  - rewrite Forall_forall in Habsent. apply Habsent.
    apply in_or_app. right. now left.
  - apply Forall_app in Habsent. destruct Habsent as [_ H].
    now inversion H.
Qed.

Lemma hover_after_removal_witness :
  let this' :=
    removeObject (by_object node_A) (set_cache (Some node_A) scene_AB) in
  let move1 := _trigger_events rectangles 2 1 1 hover this' in
  let move2 := _trigger_events rectangles 2 12 12 hover (after move1) in
  move1 = {| returned := false; called := [];
             after := set_cache (Some node_A) this' |}
  /\ called move2
     = call_if_present (onHover node_B) node_B
       ++ call_if_present (onMouseLeave node_A) node_A
  /\ _objcache_last_hist (after move2) = Some node_B.
Proof.
  apply (hover_after_removal rectangles 2 (set_cache (Some node_A) scene_AB)
           node_A node_B 1 1 12 12).
  - unfold distinct_uuids. simpl.
    repeat constructor; simpl; intuition discriminate.
  - reflexivity.
  - simpl. auto.
  - repeat constructor.
  - repeat constructor.
Defined.

(** Scanning from the top finds a hit when scanning from the bottom
    does. *)
Lemma some_hit_from_the_top (passes : Drawable -> bool)
  (stack : list Drawable) :
  existsb passes (rev stack) = existsb passes stack.
Proof.
  induction stack as [|obj stack IH]; [reflexivity|].
  cbn [rev existsb]. rewrite existsb_app, IH. cbn [existsb].
  destruct (existsb passes stack), (passes obj); reflexivity.
Qed.

(** The listener of [contextmenu] prevents the default exactly when an
    object of the store passes the geometric test at the pointer,
    whether or not that object has a right-click callback. *)
Theorem contextmenu_prevented_iff_object_hit
  (ctx : HitTests) (dpi : Q) (ev : MouseEvent) (this : BrainMaps) :
  defaultPrevented (on_contextmenu ctx dpi ev this)
  = existsb (hits ctx (offsetX ev * dpi) (offsetY ev * dpi))
      (_OBJ_STACK this).
Proof.
  unfold on_contextmenu, _trigger_events. cbn [defaultPrevented returned].
  unfold scan. rewrite scan_object_hit. cbn [object_hit orb].
  rewrite some_hit_from_the_top.
  now destruct (existsb _ _).
Qed.

(** A right click on an object without a right-click callback calls
    nothing and still prevents the default. *)
Example contextmenu_without_callback :
  let h := on_contextmenu rectangles 2 {| offsetX := 1; offsetY := 1 |}
             scene_AB in
  defaultPrevented h = true /\ called (dispatched h) = [].
Proof. split; reflexivity. Qed.

End DispatchFacts.

(** ** Painting beyond the count of paints *)

Module DrawFacts.
Import Path Scene Notions SceneFacts.

(** A frame requested by [draw] paints the store as it is when the frame
    comes, not as it was when [draw] was called. *)
Theorem frame_paints_the_store_of_the_frame
  (before later : BrainMaps) (page : Page) :
  _OBJ_STACK before <> [] ->
  animation_frame_callbacks page = [] ->
  canvas_calls (next_frame later (draw before page))
  = canvas_calls (draw before page) ++ paint later page.
Proof.
  intros Hne Hnone. rewrite (draw_scheduled before page Hne).
  unfold next_frame, requestAnimationFrame, _fixDPI, canvas_do.
  cbn [animation_frame_callbacks clientWidth clientHeight canvas_calls
       devicePixelRatio].
  rewrite Hnone. reflexivity.
Qed.

Lemma frame_paints_the_store_of_the_frame_witness :
  canvas_calls
    (next_frame (removeObject (by_object node_A) scene_AB)
       (draw scene_AB blank_page))
  = canvas_calls (draw scene_AB blank_page)
    ++ paint (removeObject (by_object node_A) scene_AB) blank_page.
Proof.
  apply (frame_paints_the_store_of_the_frame scene_AB
           (removeObject (by_object node_A) scene_AB) blank_page).
  - discriminate.
  - reflexivity.
Defined.

(** On an empty store [draw] resizes and clears the canvas at once and
    requests no frame: with no callback waiting, the next frame paints
    nothing, whatever was added to the store in between. *)
Theorem draw_on_empty_store_requests_no_frame
  (this later : BrainMaps) (page : Page) :
  _OBJ_STACK this = [] ->
  animation_frame_callbacks page = [] ->
  canvas_calls (draw this page)
  = canvas_calls page
    ++ [setAttribute "height" (clientHeight page * devicePixelRatio page);
        setAttribute "width" (clientWidth page * devicePixelRatio page);
        clearRect 0 0 (clientWidth page) (clientHeight page)]
  /\ next_frame later (draw this page) = draw this page.
Proof.
  intros Hempty Hnone. unfold draw. rewrite Hempty. cbn [List.length Nat.eqb].
  unfold _fixDPI, canvas_do, next_frame.
  cbn [animation_frame_callbacks clientWidth clientHeight canvas_calls
       devicePixelRatio].
  rewrite Hnone. cbn [fold_left]. split; [|reflexivity].
  now rewrite <- app_assoc.
Qed.

Lemma draw_on_empty_store_requests_no_frame_witness :
  canvas_calls (draw new_BrainMaps blank_page)
  = canvas_calls blank_page
    ++ [setAttribute "height"
          (clientHeight blank_page * devicePixelRatio blank_page);
        setAttribute "width"
          (clientWidth blank_page * devicePixelRatio blank_page);
        clearRect 0 0 (clientWidth blank_page) (clientHeight blank_page)]
  /\ next_frame scene_AB (draw new_BrainMaps blank_page)
     = draw new_BrainMaps blank_page.
Proof.
  apply (draw_on_empty_store_requests_no_frame new_BrainMaps scene_AB
           blank_page); reflexivity.
Defined.

(** An object made by [createObject] is drawn with the styles and the
    line width of its options, or the defaults of the parameters (white,
    black, 2) where an option is left out; the line width 1 of the
    merged object never shows.  It is filled only when made in fill
    mode, and always stroked. *)
Theorem created_object_is_drawn_with_its_options
  (v4 : nat -> JSString) (calls calls' : nat) (id : JSString)
  (path : BrainMapsPath2D) (options : RenderOptions)
  (isFillObject : option bool) (obj : Drawable) :
  createObject v4 calls id path options isFillObject
  = Returned (obj, calls') ->
  _drawObject obj
  = [set_fillStyle (default (lit "#FFFFFF") (opt_fillStyle options));
     set_strokeStyle (default (lit "#000000") (opt_strokeStyle options));
     set_lineWidth (default 2 (opt_lineWidth options))]
    ++ (if default false isFillObject then [fill (getPath path)] else [])
    ++ [stroke (getPath path)].
Proof.
  unfold createObject.
  destruct (negb (startsWith id (lit "#"))); [discriminate|].
  intros H. inversion H; subst; clear H.
  unfold _drawObject, fill_mode. simpl.
  destruct (default false isFillObject); reflexivity.
Qed.

Lemma created_object_is_drawn_with_its_options_witness :
  exists obj,
    createObject numbering_v4 0 (lit "#box")
      (rect 2 0 0 10 10 new_BrainMapsPath2D)
      {| opt_fillStyle := Some (lit "#f44336"); opt_strokeStyle := None;
         opt_lineWidth := None |} (Some true)
    = Returned (obj, 1%nat)
    /\ _drawObject obj
       = [set_fillStyle (lit "#f44336"); set_strokeStyle (lit "#000000");
          set_lineWidth 2;
          fill (getPath (rect 2 0 0 10 10 new_BrainMapsPath2D));
          stroke (getPath (rect 2 0 0 10 10 new_BrainMapsPath2D))].
Proof.
  eexists. split; [reflexivity|].
  eapply (created_object_is_drawn_with_its_options numbering_v4 0 1
            (lit "#box") (rect 2 0 0 10 10 new_BrainMapsPath2D)
            {| opt_fillStyle := Some (lit "#f44336"); opt_strokeStyle := None;
               opt_lineWidth := None |} (Some true)).
  reflexivity.
Defined.

End DrawFacts.

(** ** Rounded rectangles beyond the guard *)

Module RoundedFacts.
Import Path Shapes ShapesFacts.

Lemma Qmin_positive (a b : Q) : 0 < a -> 0 < b -> 0 < Qmin a b.
Proof.
  intros Ha Hb. unfold Qmin, GenericMinMax.gmin.
  now destruct (a ?= b).
Qed.

Lemma Qmin_left (a b : Q) : a <= b -> Qmin a b = a.
Proof.
  intros H. unfold Qmin, GenericMinMax.gmin.
  destruct (a ?= b) eqn:E; try reflexivity.
  apply Qgt_alt in E. exfalso. exact (Qlt_not_le _ _ E H).
Qed.

Lemma num_eq_false_of_positive (a : Q) : 0 < a -> num_eq a 0 = false.
Proof.
  intros H. unfold num_eq. destruct (Qeq_bool a 0) eqn:E; [|reflexivity].
  apply Qeq_bool_iff in E. rewrite E in H. exfalso.
  exact (Qlt_irrefl _ H).
Qed.

Lemma num_lt_false_of_nonneg (a : Q) : 0 <= a -> num_lt a 0 = false.
Proof.
  intros H. destruct (num_lt a 0) eqn:E; [|reflexivity].
  apply num_lt_iff in E. exfalso. exact (Qlt_not_le _ _ E H).
Qed.

(** A border radius of half the shorter side or more gives the very
    path of a border radius of half the shorter side. *)
Theorem roundedRectangle_radius_clamped
  (dpi anchorX anchorY width height borderRadius : Q) :
  invalid_input anchorX anchorY width height borderRadius = false ->
  (1 # 2) * Qmin width height <= borderRadius ->
  roundedRectangle dpi anchorX anchorY width height borderRadius
  = roundedRectangle dpi anchorX anchorY width height
      ((1 # 2) * Qmin width height).
Proof.
  intros Hvalid Hbig.
  unfold invalid_input in Hvalid.
  repeat (apply orb_false_iff in Hvalid;
          destruct Hvalid as [Hvalid ?]).
  assert (Hw : 0 < width).
  { apply Qnot_le_lt. intros Hle. apply num_le_iff in Hle. congruence. }
  assert (Hh : 0 < height).
  { apply Qnot_le_lt. intros Hle. apply num_le_iff in Hle. congruence. }
  pose proof (Qmin_positive width height Hw Hh) as Hm.
  set (half := (1 # 2) * Qmin width height) in *.
  assert (Hhalf : 0 < half) by (unfold half; lra).
  assert (Hr : 0 < borderRadius) by lra.
  unfold roundedRectangle, invalid_input.
  rewrite Hvalid.
  replace (num_lt anchorY 0) with false by congruence.
  replace (num_le width 0) with false by congruence.
  replace (num_le height 0) with false by congruence.
  replace (num_lt borderRadius 0) with false by congruence.
  rewrite (num_lt_false_of_nonneg half) by lra.
  rewrite (num_eq_false_of_positive _ Hr), (num_eq_false_of_positive _ Hhalf).
  cbn [orb]. fold half.
  rewrite (Qmin_left half borderRadius Hbig).
  rewrite (Qmin_left half half) by apply Qle_refl.
  reflexivity.
Qed.

Lemma roundedRectangle_radius_clamped_witness :
  roundedRectangle 2 100 100 50 20 30
  = roundedRectangle 2 100 100 50 20 ((1 # 2) * Qmin 50 20).
Proof.
  apply (roundedRectangle_radius_clamped 2 100 100 50 20 30).
  - reflexivity.
  - vm_compute. discriminate.
Defined.

(** With a border radius of zero the path is one rectangle of the given
    width and height, scaled, whose centre is the scaled anchor. *)
Theorem roundedRectangle_square_is_centred
  (dpi anchorX anchorY width height borderRadius : Q) :
  invalid_input anchorX anchorY width height borderRadius = false ->
  borderRadius == 0 ->
  exists rx ry rw rh,
    roundedRectangle dpi anchorX anchorY width height borderRadius
    = Returned {| _path2d := [Path2D_rect rx ry rw rh] |}
    /\ rw == width * dpi
    /\ rh == height * dpi
    /\ rx + rw / 2 == anchorX * dpi
    /\ ry + rh / 2 == anchorY * dpi.
Proof.
  intros Hvalid Hzero. unfold roundedRectangle. rewrite Hvalid.
  assert (E : num_eq borderRadius 0 = true) by now apply Qeq_bool_iff.
  rewrite E. unfold rect, call. cbn [_path2d new_BrainMapsPath2D app].
  eexists. eexists. eexists. eexists.
  split; [reflexivity|].
  (split; [|split; [|split]]); try reflexivity; field.
Qed.

Lemma roundedRectangle_square_is_centred_witness :
  exists rx ry rw rh,
    roundedRectangle 2 100 100 50 20 0
    = Returned {| _path2d := [Path2D_rect rx ry rw rh] |}
    /\ rw == 50 * 2
    /\ rh == 20 * 2
    /\ rx + rw / 2 == 100 * 2
    /\ ry + rh / 2 == 100 * 2.
Proof.
  apply (roundedRectangle_square_is_centred 2 100 100 50 20 0);
    reflexivity.
Defined.

End RoundedFacts.

(** ** Text layout beyond the box *)

Module LayoutFacts.
Import TextLayout Notions TextLayoutFacts.

(** *** Units *)

Lemma word_char_bounds (c : CodeUnit) :
  isWordChar c = true -> (33 <= c <= 122)%N.
Proof.
  unfold isWordChar.
  rewrite !orb_true_iff, !andb_true_iff, !N.leb_le, !N.eqb_eq. lia.
Qed.

Lemma white_space_bounds (c : CodeUnit) :
  isWhiteSpace c = true -> (c <= 32 \/ 160 <= c)%N.
Proof.
  unfold isWhiteSpace.
  rewrite !orb_true_iff, !andb_true_iff, !N.leb_le, !N.eqb_eq. lia.
Qed.

Lemma word_char_not_white_space (c : CodeUnit) :
  isWordChar c = true -> isWhiteSpace c = false.
Proof.
  intros Hw. destruct (isWhiteSpace c) eqn:Hs; [|reflexivity].
  apply word_char_bounds in Hw. apply white_space_bounds in Hs. lia.
Qed.

(** The matches are empty only for a blank text and no run. *)
Lemma matches_from_nil (s : JSString) :
  forall run, matches_from run s = [] <-> run = [] /\ blank s = true.
Proof.
  induction s as [|c s IH]; intros run; simpl.
  - destruct run; simpl; split; try tauto; try discriminate.
    intros [H _]. discriminate.
  - destruct (isWordChar c) eqn:Hw.
    + rewrite (word_char_not_white_space c Hw). simpl. rewrite IH. split.
      * intros [H _]. now destruct run.
      * intros [_ H]. discriminate.
    + destruct (isWhiteSpace c) eqn:Hs; simpl.
      * destruct run; [rewrite IH; tauto|].
        split; [discriminate | intros [H _]; discriminate].
      * split; [|intros [_ H]; discriminate].
        intros H. apply app_eq_nil in H. destruct H as [_ H]. discriminate.
Qed.

Lemma String_match_null (text : JSString) :
  String_match text = None <-> blank text = true.
Proof.
  unfold String_match. destruct (matches_from [] text) eqn:E.
  - apply matches_from_nil in E. tauto.
  - split; [discriminate|]. intros H.
    assert (matches_from [] text = []) by (apply matches_from_nil; auto).
    congruence.
Qed.

Lemma visible_app (a b : JSString) : visible (a ++ b) = visible a ++ visible b.
Proof. apply filter_app. Qed.

Lemma visible_concat (l : list JSString) (s : JSString) :
  visible (List.concat (l ++ [s])) = visible (List.concat l) ++ visible s.
Proof. now rewrite concat_app, visible_app; simpl; rewrite app_nil_r. Qed.

Lemma visible_matches (s : JSString) :
  forall run,
    visible (List.concat (matches_from run s)) = visible run ++ visible s.
Proof.
  induction s as [|c s IH]; intros run; simpl.
  - destruct run; simpl; now rewrite ?app_nil_r.
  - destruct (isWordChar c) eqn:Hw.
    + rewrite (word_char_not_white_space c Hw). simpl.
      rewrite IH, visible_app. simpl.
      rewrite (word_char_not_white_space c Hw). simpl.
      now rewrite <- app_assoc.
    + destruct (isWhiteSpace c) eqn:Hs; simpl.
      * destruct run as [|r run]; [now rewrite IH|].
        cbn [List.concat]. rewrite visible_app, IH, visible_app.
        cbn [visible filter]. rewrite Hs. simpl.
        now rewrite !app_nil_r.
      * rewrite concat_app. cbn [List.concat]. rewrite !visible_app, IH.
        cbn [visible filter]. rewrite Hs. simpl.
        destruct run; simpl; now rewrite ?app_nil_r.
Qed.

Lemma matches_nonempty (s : JSString) :
  forall run, Forall (fun u => u <> []) (matches_from run s).
Proof.
  induction s as [|c s IH]; intros run; simpl.
  - destruct run; repeat constructor. discriminate.
  - destruct (isWordChar c); [apply IH|].
    destruct (isWhiteSpace c).
    + destruct run; [apply IH|]. constructor; [discriminate | apply IH].
    + apply Forall_app. split.
      * destruct run; repeat constructor. discriminate.
      * constructor; [discriminate | apply IH].
Qed.

(** Once the array is not empty, the punctuation loop moves text between
    units and neither drops nor adds any. *)
Lemma cnpunc_loop_concat (us : list JSString) :
  forall i front x,
    List.concat (cnpunc_loop (S i) (front ++ [x]) us)
    = List.concat (front ++ [x]) ++ List.concat us
    /\ (Forall (fun u => u <> []) (front ++ [x]) ->
        Forall (fun u => u <> []) us ->
        Forall (fun u => u <> []) (cnpunc_loop (S i) (front ++ [x]) us)).
Proof.
  induction us as [|u us IH]; intros i front x; cbn [cnpunc_loop].
  - split; [now rewrite app_nil_r | auto].
  - destruct (is_cnpunc u) eqn:Hu.
    + rewrite cnpunc_step_attach by assumption.
      destruct (IH (S i) front (x ++ u)) as [E F]. split.
      * etransitivity; [exact E|]. rewrite !concat_app. simpl.
        now rewrite !app_nil_r, <- !app_assoc.
      * intros H1 H2. inversion H2; subst. apply F; [|assumption].
        apply Forall_app in H1. destruct H1 as [H1 H1'].
        apply Forall_app. split; [assumption|].
        constructor; [|constructor]. inversion H1'; subst.
        now destruct x.
    + rewrite cnpunc_step_push by assumption.
      destruct (IH (S i) (front ++ [x]) u) as [E F]. split.
      * etransitivity; [exact E|]. rewrite !concat_app. simpl.
        now rewrite !app_nil_r, <- !app_assoc.
      * intros H1 H2. inversion H2; subst. apply F; [|assumption].
        apply Forall_app. split; [assumption|]. now constructor.
Qed.

Lemma merge_cnpunc_concat (us : list JSString) :
  List.concat (merge_cnpunc us) = List.concat us
  /\ (Forall (fun u => u <> []) us ->
      Forall (fun u => u <> []) (merge_cnpunc us)).
Proof.
  destruct us as [|u us]; [split; auto|].
  unfold merge_cnpunc. cbn [cnpunc_loop].
  change (cnpunc_step 0 [] u) with ([] ++ [u]).
  destruct (cnpunc_loop_concat us 0 [] u) as [E F]. split.
  - rewrite E. simpl. now rewrite app_nil_r.
  - intros H. inversion H; subst. apply F; [|assumption].
    now constructor.
Qed.

(** The units of a text hold its characters that are not white space,
    all of them and in their order, and no unit is empty. *)
Theorem layout_units_keep_visible_text (text : JSString)
  (units : list JSString) :
  layout_units text = Some units ->
  visible (List.concat units) = visible text
  /\ Forall (fun u => u <> []) units
  /\ units <> [].
Proof.
  unfold layout_units, String_match. intros H.
  pose proof (visible_matches text []) as Hv.
  pose proof (matches_nonempty text []) as Hn.
  destruct (matches_from [] text) as [|m ms] eqn:E; [discriminate|].
  inversion H; subst units; clear H.
  destruct (merge_cnpunc_concat (m :: ms)) as [Hc Hf].
  rewrite Hc. repeat split.
  - exact Hv.
  - now apply Hf.
  - apply merge_cnpunc_nonempty. discriminate.
Qed.

Lemma layout_units_keep_visible_text_witness :
  visible (List.concat [lit "Hi, "; [wan]; [jun; fullwidth_comma]])
  = visible (lit "Hi,   " ++ [wan; jun; fullwidth_comma])
  /\ Forall (fun u => u <> []) [lit "Hi, "; [wan]; [jun; fullwidth_comma]]
  /\ [lit "Hi, "; [wan]; [jun; fullwidth_comma]] <> [].
Proof.
  apply (layout_units_keep_visible_text
           (lit "Hi,   " ++ [wan; jun; fullwidth_comma])).
  reflexivity.
Defined.

(** The regular expression matches nothing exactly in the blank texts,
    the empty text among them; with a positive maximum width
    [layoutText] then throws on the missing matches, before it measures
    anything: whatever the document and the number of rounds. *)
Theorem layoutText_blank_text_throws (document : Document) (fuel : nat)
  (text : JSString) (textOptions : TextOptions) :
  0 < textMaxWidth textOptions ->
  (String_match text = None <-> blank text = true)
  /\ (blank text = true ->
      layoutText document fuel text textOptions
      = Threw (ErrorOf "Unable to parse text: " TypeError)).
Proof.
  intros Hpos. split; [apply String_match_null|].
  intros Hblank. apply String_match_null in Hblank.
  unfold layoutText. rewrite (positive_width_breaks _ Hpos).
  now rewrite Hblank.
Qed.

Lemma layoutText_blank_text_throws_witness :
  (String_match (lit "  ") = None <-> blank (lit "  ") = true)
  /\ (blank (lit "  ") = true ->
      layoutText (fixed_width_document 10 21) 0 (lit "  ") (options_width 30)
      = Threw (ErrorOf "Unable to parse text: " TypeError)).
Proof.
  apply (layoutText_blank_text_throws (fixed_width_document 10 21) 0
           (lit "  ") (options_width 30)).
  reflexivity.
Defined.

(** A text with a character that is not white space has units. *)
Example String_match_of_visible_text :
  String_match (lit " a ") = Some [lit "a "] /\ blank (lit " a ") = false.
Proof. split; reflexivity. Qed.

(** Without a maximum width the empty text is laid out like any other. *)
Example layoutText_empty_text_unbounded :
  layoutText (fixed_width_document 10 21) 0 [] (options_width 0)
  = Returned {| size := {| width := 0; height := 21 |}; lines := [[]] |}.
Proof. reflexivity. Qed.

(** *** Lines *)

Lemma visible_trimStart (s : JSString) : visible (trimStart s) = visible s.
Proof.
  induction s as [|c s IH]; simpl; [reflexivity|].
  destruct (isWhiteSpace c) eqn:E; simpl; [exact IH | now rewrite E].
Qed.

Lemma visible_trim (s : JSString) : visible (trim s) = visible s.
Proof.
  unfold trim, trimEnd, visible.
  rewrite filter_rev. fold (visible (trimStart (rev (trimStart s)))).
  rewrite visible_trimStart. unfold visible. rewrite filter_rev.
  rewrite rev_involutive. apply visible_trimStart.
Qed.

Lemma groups_length (groups : list (list JSString)) :
  Forall (fun g => g <> []) groups ->
  (List.length groups <= List.length (List.concat groups))%nat.
Proof.
  induction 1 as [|g groups Hg _ IH]; simpl; [lia|].
  rewrite length_app. destruct g; [congruence|]. simpl. lia.
Qed.

Section Lines.
Variable document : Document.
Variable textOptions : TextOptions.

Local Abbreviation round := (fill_round document textOptions).
Local Abbreviation loop := (fill_loop document textOptions).
Local Abbreviation fits := (fits document textOptions).
Local Abbreviation lines_fit := (lines_fit document textOptions).

(** A property that every round of the loop keeps holds when the loop
    is over, and no unit is left then. *)
Lemma fill_loop_keeps (P : FillState -> Prop) :
  (forall st u rest, _temp_text st = u :: rest -> P st -> P (round st)) ->
  forall fuel st st',
    P st -> loop fuel st = Some st' -> P st' /\ _temp_text st' = [].
Proof.
  intros Hround. induction fuel as [|fuel IH]; intros st st' HP H.
  - simpl in H. destruct (_temp_text st) eqn:E; [|discriminate].
    inversion H; subst. auto.
  - cbn [fill_loop] in H. destruct (_temp_text st) as [|u rest] eqn:E.
    + inversion H; subst. auto.
    + apply (IH (round st)); [|exact H]. now apply (Hround st u rest).
Qed.

Lemma fits_trim (l : JSString) : fits (trim l) = fits l.
Proof.
  unfold TextLayout.fits. now rewrite (measured_trim document textOptions).
Qed.

Lemma lines_fit_round (st : FillState) (u : JSString) (rest : list JSString) :
  _temp_text st = u :: rest -> lines_fit st -> lines_fit (round st).
Proof.
  intros Et [front [El [Hfront [Hcur _]]]].
  rewrite (fill_round_cons document textOptions st u rest Et).
  destruct (TextLayout.fits document textOptions (line_pointer st ++ u))
    eqn:Hc.
  - exists front. cbn [fill_lines line_pointer _temp_text].
    rewrite El, set_last_snoc. auto.
  - rewrite El, last_elem_snoc.
    destruct (line_pointer st) as [|c lp] eqn:Ep.
    + simpl. exists front. rewrite El, Ep. repeat split; auto.
      rewrite Et. discriminate.
    + cbn [List.length Nat.eqb negb].
      exists (front ++ [trim (c :: lp)]).
      cbn [fill_lines line_pointer _temp_text].
      rewrite set_last_snoc. repeat split.
      * apply Forall_app. split; [assumption|].
        constructor; [|constructor]. rewrite fits_trim.
        apply Hcur. discriminate.
      * congruence.
      * discriminate.
Qed.

Lemma text_kept_round (shown : JSString) (st : FillState) (u : JSString)
  (rest : list JSString) :
  _temp_text st = u :: rest -> text_kept shown st -> text_kept shown (round st).
Proof.
  intros Et [Hinv Hv].
  split; [now apply fill_inv_round|].
  destruct Hinv as [Hne Hlp].
  destruct (nonempty_snoc _ Hne) as [front [x E]].
  rewrite E, last_elem_snoc in Hlp.
  rewrite E, Et, visible_concat in Hv. cbn [List.concat] in Hv.
  rewrite visible_app in Hv.
  rewrite (fill_round_cons document textOptions st u rest Et).
  destruct (TextLayout.fits document textOptions (line_pointer st ++ u)).
  - cbn [fill_lines _temp_text]. rewrite E, set_last_snoc, visible_concat.
    rewrite visible_app, Hlp, <- Hv. now rewrite <- !app_assoc.
  - rewrite E, last_elem_snoc. destruct (negb _).
    + cbn [fill_lines _temp_text]. rewrite set_last_snoc.
      rewrite !visible_concat, visible_trim. cbn [List.concat].
      rewrite visible_app, <- Hv. simpl. now rewrite !app_nil_r.
    + rewrite E, Et, visible_concat. cbn [List.concat].
      now rewrite visible_app.
Qed.

Lemma units_grouped_round (units : list JSString) (st : FillState)
  (u : JSString) (rest : list JSString) :
  _temp_text st = u :: rest ->
  units_grouped units st -> units_grouped units (round st).
Proof.
  intros Et [front [groups [g [El [Hg [Hfront [Hunits [Hcur _]]]]]]]].
  rewrite (fill_round_cons document textOptions st u rest Et).
  destruct (TextLayout.fits document textOptions (line_pointer st ++ u)).
  - exists front, groups, (g ++ [u]).
    cbn [fill_lines line_pointer _temp_text].
    rewrite El, set_last_snoc. repeat split; auto.
    + rewrite concat_app, Hg. simpl. now rewrite app_nil_r.
    + rewrite <- Hunits, Et, !concat_app. cbn [List.concat].
      rewrite !app_nil_r, <- !app_assoc. reflexivity.
    + intros _ H. now destruct g.
    + intros _ H. now destruct g.
  - rewrite El, last_elem_snoc.
    destruct (line_pointer st) as [|c lp] eqn:Ep.
    + simpl. exists front, groups, g. rewrite El, Ep, Et.
      repeat split; auto; try discriminate.
      now rewrite <- Hunits, Et.
    + cbn [List.length Nat.eqb negb].
      exists (front ++ [trim (c :: lp)]), (groups ++ [g]), [].
      cbn [fill_lines line_pointer _temp_text].
      rewrite set_last_snoc. repeat split; try congruence.
      * apply Forall2_app; [assumption|].
        constructor; [|constructor]. split.
        -- apply Hcur. discriminate.
        -- right. now rewrite Hg.
      * rewrite <- Hunits, Et, !concat_app. cbn [List.concat].
        now rewrite !app_nil_r.
Qed.

End Lines.

(** Every line that [layoutText] returns for a positive maximum width
    fits: measured again, it is not wider than the maximum width. *)
Theorem layoutText_lines_fit (document : Document) (fuel : nat)
  (text : JSString) (textOptions : TextOptions) (r : Layout) :
  0 < textMaxWidth textOptions ->
  layoutText document fuel text textOptions = Returned r ->
  Forall (fun l => inject_Z (measured document textOptions l)
                   <= textMaxWidth textOptions) (lines r).
Proof.
  intros Hpos H. unfold layoutText in H.
  rewrite (positive_width_breaks _ Hpos) in H.
  destruct (String_match text) as [text_groups|] eqn:Em; [|discriminate].
  destruct (fill_loop _ _ _ _) as [st|] eqn:E; [|discriminate].
  inversion H; subst r; clear H. cbn [lines fill_result].
  assert (Hne : merge_cnpunc text_groups <> []).
  { apply merge_cnpunc_nonempty. unfold String_match in Em.
    destruct (matches_from [] text); [discriminate|].
    inversion Em. discriminate. }
  assert (Hinit : lines_fit document textOptions
                    (fill_init (merge_cnpunc text_groups))).
  { exists []. cbn [fill_init fill_lines line_pointer _temp_text].
    repeat split; auto; congruence. }
  destruct (fill_loop_keeps document textOptions
              (lines_fit document textOptions)
              (lines_fit_round document textOptions) fuel _ _ Hinit E)
    as [[front [El [Hfront [_ Hlast]]]] Hdone].
  rewrite El. apply Forall_app. split.
  - eapply Forall_impl; [|exact Hfront].
    intros l Hl. now apply Qle_bool_iff.
  - constructor; [|constructor]. apply Qle_bool_iff. now apply Hlast.
Qed.

Lemma layoutText_lines_fit_witness :
  Forall (fun l => inject_Z (measured (fixed_width_document 10 21)
                               (options_width 60) l)
                   <= textMaxWidth (options_width 60))
    (lines {| size := {| width := 50; height := 126 # 4 |};
              lines := [lit "hello"; lit "world"] |}).
Proof.
  apply (layoutText_lines_fit (fixed_width_document 10 21) 4
           (lit "hello world") (options_width 60)).
  - reflexivity.
  - vm_compute. reflexivity.
Defined.

(** The lines that [layoutText] returns for a positive maximum width
    hold the characters of the text that are not white space, all of
    them and in their order. *)
Theorem layoutText_keeps_visible_text (document : Document) (fuel : nat)
  (text : JSString) (textOptions : TextOptions) (r : Layout) :
  0 < textMaxWidth textOptions ->
  layoutText document fuel text textOptions = Returned r ->
  visible (List.concat (lines r)) = visible text.
Proof.
  intros Hpos H.
  destruct (layout_units text) as [units|] eqn:Eu.
  - rewrite (layoutText_breaking document fuel text textOptions units
               Hpos Eu) in H.
    destruct (fill_loop _ _ _ _) as [st|] eqn:E; [|discriminate].
    inversion H; subst r; clear H. cbn [lines fill_result].
    assert (Hunits : visible (List.concat units) = visible text).
    { unfold layout_units, String_match in Eu.
      pose proof (visible_matches text []) as Hv.
      destruct (matches_from [] text) as [|m ms]; [discriminate|].
      inversion Eu; subst units.
      destruct (merge_cnpunc_concat (m :: ms)) as [Hc _].
      now rewrite Hc. }
    destruct (fill_loop_keeps document textOptions
                (text_kept (visible (List.concat units)))
                (text_kept_round document textOptions _) fuel _ _
                (conj (fill_inv_init units) eq_refl) E)
      as [[_ Hv] Hdone].
    rewrite Hdone in Hv. simpl in Hv. rewrite app_nil_r in Hv.
    now rewrite Hv.
  - unfold layoutText in H. rewrite (positive_width_breaks _ Hpos) in H.
    unfold layout_units in Eu.
    destruct (String_match text); discriminate.
Qed.

Lemma layoutText_keeps_visible_text_witness :
  visible (List.concat
             (lines {| size := {| width := 50; height := 126 # 4 |};
                       lines := [lit "hello"; lit "world"] |}))
  = visible (lit "hello world").
Proof.
  apply (layoutText_keeps_visible_text (fixed_width_document 10 21) 4
           (lit "hello world") (options_width 60)).
  - reflexivity.
  - vm_compute. reflexivity.
Defined.

(** No unit is split between lines: the lines that [layoutText] returns
    for a positive maximum width are the units of the text, cut into
    consecutive groups that are not empty, each group joined into one
    line; so there are at most as many lines as units. *)
Theorem layoutText_never_splits_a_unit (document : Document) (fuel : nat)
  (text : JSString) (textOptions : TextOptions) (units : list JSString)
  (r : Layout) :
  0 < textMaxWidth textOptions ->
  layout_units text = Some units ->
  layoutText document fuel text textOptions = Returned r ->
  (exists groups,
     List.concat groups = units /\ Forall2 line_of_units (lines r) groups)
  /\ (List.length (lines r) <= List.length units)%nat.
Proof.
  intros Hpos Eu H.
  rewrite (layoutText_breaking document fuel text textOptions units Hpos Eu)
    in H.
  destruct (fill_loop _ _ _ _) as [st|] eqn:E; [|discriminate].
  inversion H; subst r; clear H. cbn [lines fill_result].
  assert (Hne : units <> []).
  { unfold layout_units, String_match in Eu.
    destruct (matches_from [] text) eqn:Em; [discriminate|].
    inversion Eu. apply merge_cnpunc_nonempty. discriminate. }
  assert (Hinit : units_grouped units (fill_init units)).
  { exists [], [], []. cbn [fill_init fill_lines line_pointer _temp_text].
    repeat split; auto; try constructor; congruence. }
  destruct (fill_loop_keeps document textOptions (units_grouped units)
              (units_grouped_round document textOptions units) fuel _ _
              Hinit E)
    as [[front [groups [g [El [Hg [Hfront [Hunits [_ Hlast]]]]]]]] Hdone].
  rewrite Hdone, app_nil_r in Hunits.
  assert (Hall : Forall2 line_of_units (fill_lines st) (groups ++ [g])).
  { rewrite El. apply Forall2_app; [assumption|].
    constructor; [|constructor]. split; [now apply Hlast|].
    left. now rewrite Hg. }
  split.
  - now exists (groups ++ [g]).
  - rewrite (Forall2_length Hall), <- Hunits.
    apply groups_length.
    clear - Hall. induction Hall as [|l g0 ls gs [Hg0 _] _ IH];
      constructor; assumption.
Qed.

Lemma layoutText_never_splits_a_unit_witness :
  let r := {| size := {| width := 50; height := 126 # 4 |};
              lines := [lit "hello"; lit "world"] |} in
  (exists groups,
     List.concat groups = [lit "hello "; lit "world"]
     /\ Forall2 line_of_units (lines r) groups)
  /\ (List.length (lines r) <= List.length [lit "hello "; lit "world"])%nat.
Proof.
  apply (layoutText_never_splits_a_unit (fixed_width_document 10 21) 4
           (lit "hello world") (options_width 60)).
  - reflexivity.
  - reflexivity.
  - vm_compute. reflexivity.
Defined.

(** *** The lemmas on the box, on a text *)

Lemma layoutText_returns_witness :
  exists r,
    layoutText (fixed_width_document 10 21) 4 (lit "hello world")
      (options_width 60) = Returned r.
Proof.
  apply (layoutText_returns (fixed_width_document 10 21) (lit "hello world")
           (options_width 60) [lit "hello "; lit "world"] 4).
  - reflexivity.
  - reflexivity.
  - repeat constructor.
  - simpl. lia.
Defined.

Lemma layoutText_box_within_maxWidth_witness :
  width (size {| size := {| width := 50; height := 126 # 4 |};
                 lines := [lit "hello"; lit "world"] |})
  == inject_Z (observed_max_width (fixed_width_document 10 21) 4
                 (lit "hello world") (options_width 60)).
Proof.
  apply (layoutText_box_within_maxWidth (fixed_width_document 10 21) 4
           (lit "hello world") (options_width 60)).
  - reflexivity.
  - vm_compute. reflexivity.
Defined.

Lemma layoutText_box_width_of_lines_witness :
  width (size {| size := {| width := 50; height := 126 # 4 |};
                 lines := [lit "hello"; lit "world"] |})
  = Qmin (inject_Z (max_line_width (fixed_width_document 10 21)
                      (options_width 60) [lit "hello"; lit "world"]))
      (textMaxWidth (options_width 60)).
Proof.
  apply (layoutText_box_width_of_lines (fixed_width_document 10 21) 4
           (lit "hello world") (options_width 60)).
  - apply fixed_width_monotone. lia.
  - reflexivity.
  - vm_compute. reflexivity.
Defined.

(** With a positive maximum width and a text size that is not negative,
    the box has a width and a height that are not negative, and there is
    at least one line. *)
Lemma layoutText_size_nonneg (document : Document) (fuel : nat)
  (text : JSString) (textOptions : TextOptions) (r : Layout) :
  0 < textMaxWidth textOptions ->
  0 <= textSize textOptions ->
  layoutText document fuel text textOptions = Returned r ->
  0 <= width (size r) /\ 0 <= height (size r).
Proof.
  intros Hpos Hts H.
  destruct (layoutText_width_bound document fuel text textOptions r Hpos H)
    as [Hw _].
  split.
  - rewrite Hw. apply Q.min_glb; [|now apply Qlt_le_weak].
    unfold observed_max_width.
    destruct (String_match text); [|apply Qle_refl].
    change 0 with (inject_Z 0). rewrite <- Zle_Qle. apply maximum_nonneg.
  - unfold layoutText in H. rewrite (positive_width_breaks _ Hpos) in H.
    destruct (String_match text) as [text_groups|]; [|discriminate].
    destruct (fill_loop _ _ _ _) as [st|] eqn:E; [|discriminate].
    inversion H; subst r; clear H. cbn [size height fill_result].
    destruct (fill_loop_keeps document textOptions fill_inv
                (fun st _ _ _ => fill_inv_round document textOptions st)
                fuel _ _ (fill_inv_init _) E) as [[Hne _] _].
    assert (Hn : 1 <= length_num (fill_lines st)).
    { unfold length_num. change 1 with (inject_Z 1). rewrite <- Zle_Qle.
      destruct (fill_lines st); [congruence|]. simpl List.length. lia. }
    assert (H1 : 0 <= length_num (fill_lines st) * textSize textOptions)
      by (apply Qmult_le_0_compat; lra).
    assert (H2 : 0 <= (length_num (fill_lines st) - 1) * (1 # 4)
                      * textSize textOptions).
    { apply Qmult_le_0_compat; [|assumption].
      apply Qmult_le_0_compat; lra. }
    lra.
Qed.

End LayoutFacts.

(** ** Text nodes *)

Module TextNodeFacts.
Import TextLayout Path Shapes Scene TextNode Notions.
Import TextLayoutFacts ShapesFacts RoundedFacts LayoutFacts.

(** The box of a text node is between 16 and 32 px wider than the text,
    and between 8 and 32 px higher. *)
Theorem node_padding (size : Size) :
  width size + 16 <= node_width size
  /\ node_width size <= width size + 32
  /\ height size + 8 <= node_height size
  /\ node_height size <= height size + 32.
Proof.
  unfold node_width, node_height.
  destruct (Q.max_spec (width size + 16)
              (Qmin (width size * (3 # 2)) (width size + 32)))
    as [[H1 E1]|[H1 E1]];
  destruct (Q.min_spec (width size * (3 # 2)) (width size + 32))
    as [[H2 E2]|[H2 E2]];
  destruct (Q.max_spec (height size + 8)
              (Qmin (height size * (3 # 2)) (height size + 32)))
    as [[H3 E3]|[H3 E3]];
  destruct (Q.min_spec (height size * (3 # 2)) (height size + 32))
    as [[H4 E4]|[H4 E4]];
  (split; [|split; [|split]]); lra.
Qed.

(** With a positive maximum width and a text size that is not negative,
    once the text is laid out [textNode] depends on the anchor alone: it
    throws [InvalidGeometry] for an anchor with a negative coordinate,
    and otherwise returns a filled object with the id [#textnode], a
    fresh uuid, the rounded rectangle around the text as its path and
    the text painter as its [drawText]. *)
Theorem textNode_outcome
  (document : Document) (fuel : nat) (dpi : Q) (v4 : nat -> JSString)
  (calls : nat) (closure : Callback) (text : JSString) (x y : Q)
  (arg : TextOptionsArg) (layout : Layout) :
  0 < textMaxWidth (merged_options arg) ->
  0 <= textSize (merged_options arg) ->
  layoutText document fuel text (merged_options arg) = Returned layout ->
  (0 <= x -> 0 <= y ->
   exists node obj,
     roundedRectangle dpi x y (node_width (size layout))
       (node_height (size layout)) 8 = Returned node
     /\ textNode document fuel dpi v4 calls closure text x y arg
        = Returned (obj, S calls)
     /\ id obj = lit "#textnode"
     /\ uuid obj = v4 calls
     /\ path obj = getPath node
     /\ fill_mode obj = true
     /\ drawText obj = Some closure)
  /\ (x < 0 \/ y < 0 ->
      textNode document fuel dpi v4 calls closure text x y arg
      = Threw InvalidGeometry).
Proof.
  intros Hpos Hts Hlayout.
  destruct (layoutText_size_nonneg document fuel text (merged_options arg)
              layout Hpos Hts Hlayout) as [Hw Hh].
  pose proof (Q.le_max_l (width (size layout) + 16)
                (Qmin (width (size layout) * (3 # 2))
                   (width (size layout) + 32))) as HW.
  pose proof (Q.le_max_l (height (size layout) + 8)
                (Qmin (height (size layout) * (3 # 2))
                   (height (size layout) + 32))) as HH.
  fold (node_width (size layout)) in HW.
  fold (node_height (size layout)) in HH.
  unfold textNode. rewrite Hlayout. cbn [bind]. split.
  - intros Hx Hy.
    assert (Hvalid : invalid_input x y (node_width (size layout))
                       (node_height (size layout)) 8 = false).
    { destruct (invalid_input _ _ _ _ _) eqn:E; [|reflexivity].
      apply invalid_input_iff in E.
      destruct E as [E|[E|[E|[E|E]]]]; lra. }
    destruct (roundedRectangle_valid dpi _ _ _ _ _ Hvalid) as [node Hnode].
    rewrite Hnode. cbn [bind]. eexists. eexists.
    split; [reflexivity|]. split; [reflexivity|].
    repeat split.
  - intros Hxy.
    assert (Hinvalid : invalid_input x y (node_width (size layout))
                         (node_height (size layout)) 8 = true)
      by (apply invalid_input_iff; tauto).
    unfold roundedRectangle. now rewrite Hinvalid.
Qed.

Lemma textNode_outcome_witness :
  let layout := {| size := {| width := 50; height := 126 # 4 |};
                   lines := [lit "hello"; lit "world"] |} in
  let arg := {| arg_textAlign := None; arg_textSize := None;
                arg_textColor := None; arg_textFont := None;
                arg_textMaxWidth := Some 60 |} in
  (0 <= 400 -> 0 <= 400 ->
   exists node obj,
     roundedRectangle 2 400 400 (node_width (size layout))
       (node_height (size layout)) 8 = Returned node
     /\ textNode (fixed_width_document 10 21) 4 2 numbering_v4 0 9%nat
          (lit "hello world") 400 400 arg
        = Returned (obj, 1%nat)
     /\ id obj = lit "#textnode"
     /\ uuid obj = numbering_v4 0
     /\ path obj = getPath node
     /\ fill_mode obj = true
     /\ drawText obj = Some 9%nat)
  /\ (400 < 0 \/ 400 < 0 ->
      textNode (fixed_width_document 10 21) 4 2 numbering_v4 0 9%nat
        (lit "hello world") 400 400 arg
      = Threw InvalidGeometry).
Proof.
  apply (textNode_outcome (fixed_width_document 10 21) 4 2 numbering_v4 0
           9%nat (lit "hello world") 400 400
           {| arg_textAlign := None; arg_textSize := None;
              arg_textColor := None; arg_textFont := None;
              arg_textMaxWidth := Some 60 |}).
  - reflexivity.
  - discriminate.
  - vm_compute. reflexivity.
Defined.

(** A text node at a negative anchor. *)
Example textNode_negative_anchor :
  textNode (fixed_width_document 10 21) 4 2 numbering_v4 0 9%nat
    (lit "hello world") (-1) 400 no_options
  = Threw InvalidGeometry.
Proof. vm_compute. reflexivity. Qed.

(** A blank text makes [textNode] throw the error of [layoutText]. *)
Example textNode_blank_text :
  textNode (fixed_width_document 10 21) 4 2 numbering_v4 0 9%nat
    (lit " ") 400 400 no_options
  = Threw (ErrorOf "Unable to parse text: " TypeError).
Proof. reflexivity. Qed.

(** *** The text painter *)

Lemma mapi_from_fillText (px : Q) (g : nat -> Q) (lines : list JSString) :
  forall idx,
    let calls :=
      mapi_from (fun l i => ctx_fillText l px (g i)) idx lines in
    fillText_texts calls = lines
    /\ fillText_ys calls = map g (seq idx (List.length lines)).
Proof.
  induction lines as [|l lines IH]; intros idx; simpl; [auto|].
  destruct (IH (S idx)) as [E1 E2]. now rewrite E1, E2.
Qed.

Lemma Forall2_map_pointwise {A : Type} (R : Q -> Q -> Prop) (f g : A -> Q)
  (l : list A) :
  (forall a, R (f a) (g a)) -> Forall2 R (map f l) (map g l).
Proof. intros H. induction l; simpl; constructor; auto. Qed.

(** The text painter draws every line once, in order, the line of index
    [idx] at the height [y - ((n - 1) / 2 - idx) * 1.25 * textSize] in
    logical pixels, [n] being the number of lines: the lines are a
    line height of 1.25 text sizes apart and their middle is at [y],
    whether their number is one, odd or even. *)
Theorem drawText_lines_centred (textOptions : TextOptions) (size : Size)
  (lines : list JSString) (x y DPI : Q) :
  let calls := drawText_body textOptions size lines x y DPI in
  fillText_texts calls = lines
  /\ Forall2 Qeq (fillText_ys calls)
       (map (centred_y y (textSize textOptions) DPI (List.length lines))
          (seq 0 (List.length lines))).
Proof.
  cbv zeta. unfold drawText_body.
  cbn [fillText_texts fillText_ys flat_map app].
  destruct (List.length lines =? 1)%nat eqn:E1.
  - apply Nat.eqb_eq in E1.
    destruct lines as [|l [|l' lines]]; try discriminate.
    simpl. split; [reflexivity|]. constructor; [|constructor].
    unfold centred_y. simpl. field.
  - unfold mapi.
    destruct (List.length lines mod 2 =? 1)%nat.
    + match goal with
      | |- context [mapi_from (fun l idx => ctx_fillText l ?px (@?g idx))
                      0 lines] =>
          destruct (mapi_from_fillText px g lines 0) as [H1 H2]
      end.
      cbv zeta in H1, H2. cbv zeta.
      fold (fillText_texts
              (mapi_from
                 (fun l idx =>
                    ctx_fillText l (posX_of textOptions size x * DPI)
                      ((y - ((length_num lines - 1) / 2 - idx_num idx)
                            * (textSize textOptions * (5 # 4))) * DPI))
                 0 lines)).
      fold (fillText_ys
              (mapi_from
                 (fun l idx =>
                    ctx_fillText l (posX_of textOptions size x * DPI)
                      ((y - ((length_num lines - 1) / 2 - idx_num idx)
                            * (textSize textOptions * (5 # 4))) * DPI))
                 0 lines)).
      rewrite H1, H2. split; [reflexivity|].
      apply Forall2_map_pointwise. intros idx.
      unfold centred_y, length_num, idx_num. reflexivity.
    + match goal with
      | |- context [mapi_from (fun l idx => ctx_fillText l ?px (@?g idx))
                      0 lines] =>
          destruct (mapi_from_fillText px g lines 0) as [H1 H2]
      end.
      cbv zeta in H1, H2. cbv zeta.
      fold (fillText_texts
              (mapi_from
                 (fun l idx =>
                    ctx_fillText l (posX_of textOptions size x * DPI)
                      ((y - (length_num lines / 2 - (1 # 2) - idx_num idx)
                            * (textSize textOptions * (5 # 4))) * DPI))
                 0 lines)).
      fold (fillText_ys
              (mapi_from
                 (fun l idx =>
                    ctx_fillText l (posX_of textOptions size x * DPI)
                      ((y - (length_num lines / 2 - (1 # 2) - idx_num idx)
                            * (textSize textOptions * (5 # 4))) * DPI))
                 0 lines)).
      rewrite H1, H2. split; [reflexivity|].
      apply Forall2_map_pointwise. intros idx.
      unfold centred_y, length_num, idx_num. field.
Qed.

End TextNodeFacts.
